(** * ps-launcher: a shallow embedding of [src/ps-launcher.cpp]

    The launcher parses its own command line, locates powershell.exe below
    the system directory, assembles one quoted command line in a fixed
    buffer of [CMD_BUFFER_SIZE] wide characters, starts the interpreter and
    returns its exit code.

    Conventions of the embedding.
    - A [WCHAR] is a 16-bit code unit, held in [Z].
    - A [wstr] is the text of a NUL-terminated wide string: the code units
      before the terminator, so a well-formed [wstr] holds no 0
      ([wstr_ok]).  [wchar_at s i] reads [s[i]]; index [length s] is the
      terminator.
    - A [buffer] is a WCHAR array of fixed length.  Stores and loads are
      bounds-checked: an access outside the array is [None], which the
      program monad turns into [Undefined].
    - [size_t] arithmetic wraps at [2 ^ size_bits], for both build targets.
    - The host (Windows API) is a record of answers, [host]; calls the
      program makes are recorded as a list of [event]s. *)

From Stdlib Require Import ZArith String Ascii Lia.
From stdpp Require Import base option list.

Local Open Scope Z_scope.

(** ** Wide characters, strings and buffers *)

Abbreviation WCHAR := Z (only parsing).
Abbreviation wstr := (list Z) (only parsing).
Abbreviation buffer := (list Z) (only parsing).

Definition DQUOTE : WCHAR := 34.      (* the double quote *)
Definition SEMICOLON : WCHAR := 59.   (* the semicolon *)
Definition BACKSLASH : WCHAR := 92.   (* the backslash *)
Definition SPACE : WCHAR := 32.       (* the space *)
Definition NUL : WCHAR := 0.          (* the terminator *)
Definition NEWLINE : WCHAR := 10.     (* the line feed *)

(** A wide string literal, for a text without double quotes. *)
Definition L (s : string) : wstr :=
  map (fun a => Z.of_N (N_of_ascii a)) (list_ascii_of_string s).

Definition CMD_BUFFER_SIZE : Z := 1024.
Definition MAX_PATH : Z := 260.
Definition INT_MAX : Z := 2147483647.

(** [lstrlenW]: the number of code units before the terminator. *)
Definition lstrlenW (s : wstr) : Z := Z.of_nat (length s).

(** [s[i]] for a string; [s[lstrlenW s]] is the terminator. *)
Definition wchar_at (s : wstr) (i : Z) : WCHAR := nth (Z.to_nat i) s NUL.

(** A string the host can hand over: no embedded terminator, 16-bit code
    units, and a length that [lstrlenW]'s [int] result can hold. *)
Definition wstr_ok (s : wstr) : Prop :=
  Forall (fun c => 0 < c < 65536) s /\ lstrlenW s <= INT_MAX.

#[global] Instance wstr_ok_dec s : Decision (wstr_ok s).
Proof. unfold wstr_ok. apply _. Defined.

(** Array accesses, checked against the array bounds. *)
Definition store (b : buffer) (i : Z) (c : WCHAR) : option buffer :=
  if (0 <=? i) && (i <? Z.of_nat (length b))
  then Some (<[Z.to_nat i := c]> b) else None.

Definition load (b : buffer) (i : Z) : option WCHAR :=
  if (0 <=? i) && (i <? Z.of_nat (length b))
  then b !! Z.to_nat i else None.

(** Scanning an array for the terminator, as [lstrlenW] does on a buffer:
    [None] when the scan would run past the end of the array. *)
Fixpoint buffer_strlen (b : buffer) : option Z :=
  match b with
  | [] => None
  | c :: b' => if c =? NUL then Some 0 else n ← buffer_strlen b'; Some (n + 1)
  end.

(** The string a buffer holds, when the buffer is handed over as an LPCWSTR. *)
Definition buffer_cstr (b : buffer) : option wstr :=
  n ← buffer_strlen b; Some (take (Z.to_nat n) b).

(** ** Build configuration *)

Inductive target := X86 | X64.

Definition size_bits (t : target) : Z :=
  match t with X86 => 32 | X64 => 64 end.

(** Reduction of an arithmetic result to [size_t]. *)
Definition size_t (t : target) (z : Z) : Z := z mod 2 ^ size_bits t.

Record build := {
  ENABLE_ERROR_DIALOGS : bool;   (* line 23: commented out, so false by default *)
  DEBUG : bool;                  (* _DEBUG *)
  arch : target
}.

Definition default_build (t : target) : build :=
  {| ENABLE_ERROR_DIALOGS := false; DEBUG := false; arch := t |}.

(** ** AppendStr (lines 58-145) *)

(** The copy loop, lines 94-125: [*destPtr++ = *srcPtr++] for each of the
    [srcLen] characters of [src]. *)
Fixpoint copy_loop (dest : buffer) (destPtr : Z) (src : wstr) : option buffer :=
  match src with
  | [] => Some dest
  | c :: src' => dest' ← store dest destPtr c; copy_loop dest' (destPtr + 1) src'
  end.

(** Result: the returned bool, the buffer and [*curLen] after the call. *)
Definition AppendStr (t : target) (dest : buffer) (destSize : Z) (src : wstr)
    (curLen : Z) : option (bool * buffer * Z) :=
  let srcLen := lstrlenW src in
  if size_t t (curLen + srcLen) >=? destSize then Some (false, dest, curLen)
  else
    dest1 ← copy_loop dest curLen src;
    let curLen' := size_t t (curLen + srcLen) in
    dest2 ← store dest1 curLen' NUL;
    Some (true, dest2, curLen').

(** ** AppendEscaped (lines 165-184) *)

(** The literal of line 172: a backslash followed by a double quote. *)
Definition escaped_quote : wstr := [BACKSLASH; DQUOTE].

Fixpoint AppendEscaped (t : target) (dest : buffer) (destSize : Z) (src : wstr)
    (curLen : Z) : option (bool * buffer * Z) :=
  match src with
  | [] => Some (true, dest, curLen)
  | c :: src' =>
      r ← (if c =? DQUOTE
           then AppendStr t dest destSize escaped_quote curLen
           else AppendStr t dest destSize [c] curLen);
      match r with
      | (false, dest', curLen') => Some (false, dest', curLen')
      | (true, dest', curLen') => AppendEscaped t dest' destSize src' curLen'
      end
  end.

(** ** The host and the calls made to it *)

(** [lstrcmpiW], a host routine, with its documented contract: a comparison
    that ignores case, 0 for equal strings.  Case is folded on the Latin
    letters, the only letters of the flag it is called with here; the
    program uses only whether the result is 0. *)
Definition fold_case (c : WCHAR) : WCHAR :=
  if (97 <=? c) && (c <=? 122) then c - 32 else c.

Fixpoint lstrcmpiW (s1 s2 : wstr) : Z :=
  match s1, s2 with
  | [], [] => 0
  | [], _ :: _ => -1
  | _ :: _, [] => 1
  | c1 :: r1, c2 :: r2 =>
      if fold_case c1 <? fold_case c2 then -1
      else if fold_case c2 <? fold_case c1 then 1
      else lstrcmpiW r1 r2
  end.

Record host := {
  (* CommandLineToArgvW(GetCommandLineW(), &argc): NULL, or the tokens *)
  CommandLineToArgvW : option (list wstr);
  (* the system directory, when the host can tell it *)
  SystemDirectory : option wstr;
  (* GetFileAttributesW(path) != INVALID_FILE_ATTRIBUTES *)
  GetFileAttributesW : wstr -> bool;
  (* what the stack holds where the uninitialised array cmd is placed *)
  stack_garbage : buffer;
  (* CreateProcessW on a command line: did it create the child? *)
  CreateProcessW : wstr -> bool;
  (* GetLastError() after a failed CreateProcessW, a DWORD *)
  GetLastError : Z;
  (* does WaitForSingleObject(pi.hProcess, INFINITE) come back? *)
  WaitForSingleObject : bool;
  (* GetExitCodeProcess: the DWORD it stores, None when the call fails *)
  GetExitCodeProcess : option Z
}.

(** [GetSystemDirectoryW(lpBuffer, uSize)] by its documentation: 0 on
    failure; the length copied (terminator not counted) when the path and
    its terminator fit in [uSize]; otherwise the size required, terminator
    counted, and the buffer is left alone. *)
Definition GetSystemDirectoryW (h : host) (lpBuffer : buffer) (uSize : Z)
    : buffer * Z :=
  match SystemDirectory h with
  | None => (lpBuffer, 0)
  | Some dir =>
      if lstrlenW dir <? uSize
      then (dir ++ NUL :: drop (S (length dir)) lpBuffer, lstrlenW dir)
      else (lpBuffer, lstrlenW dir + 1)
  end.

(** [lstrcatW(dest, src)]: copy [src] and a terminator over the terminator
    of the string in [dest]. *)
Definition lstrcatW (dest : buffer) (src : wstr) : option buffer :=
  n ← buffer_strlen dest;
  dest1 ← copy_loop dest n src;
  store dest1 (n + lstrlenW src) NUL.

Inductive handle := hProcess | hThread.

(** The text handed to [ShowError]. *)
Inductive message :=
| Text (s : wstr)                            (* a literal *)
| SystemErrorText (err : Z)                  (* errMsg, from FormatMessageW *)
| DebugText (err : Z) (cmdline : wstr).      (* debugMsg, from wsprintfW *)

Inductive event :=
| EvMessageBoxW (text caption : wstr)
| EvShowError (msg : message) (title : wstr)
| EvLocalFree
| EvCreateProcessW (cmdline : wstr) (created : bool)
| EvFormatMessageW (err : Z)
| EvWaitForSingleObject
| EvGetExitCodeProcess
| EvCloseHandle (hnd : handle).

(** ** The program monad: a trace of host calls and how control leaves *)

Inductive outcome (A : Type) : Type :=
| Continue (a : A)        (* control falls through to the next statement *)
| Return (code : Z)       (* WinMain returns the int [code] *)
| Undefined               (* an access outside an array *)
| Blocked.                (* a wait that never comes back *)
Arguments Continue {A} a.
Arguments Return {A} code.
Arguments Undefined {A}.
Arguments Blocked {A}.

Definition M (A : Type) : Type := list event * outcome A.

#[global] Instance M_ret : MRet M := fun A a => ([], Continue a).

#[global] Instance M_bind : MBind M := fun A B k m =>
  match m with
  | (tr, Continue a) => let '(tr', o) := k a in (tr ++ tr', o)
  | (tr, Return code) => (tr, Return code)
  | (tr, Undefined) => (tr, Undefined)
  | (tr, Blocked) => (tr, Blocked)
  end.

Definition emit (e : event) : M unit := ([e], Continue tt).
Definition return_ {A} (code : Z) : M A := ([], Return code).
Definition lift {A} (o : option A) : M A :=
  match o with Some a => mret a | None => ([], Undefined) end.

(** The macro of lines 24-28: a no-op unless ENABLE_ERROR_DIALOGS is defined. *)
Definition ShowError (b : build) (msg : message) (title : wstr) : M unit :=
  if ENABLE_ERROR_DIALOGS b then emit (EvShowError msg title) else mret tt.

Definition LocalFree : M unit := emit EvLocalFree.

(** Conversion of a DWORD to the [int] that WinMain returns, and the exit
    code the host records for a returned [int], again a DWORD. *)
Definition int_of_DWORD (d : Z) : Z :=
  let d := d mod 2 ^ 32 in if d <? 2 ^ 31 then d else d - 2 ^ 32.
Definition DWORD_of_int (i : Z) : Z := i mod 2 ^ 32.

Definition trace {A} (m : M A) : list event := fst m.
Definition returned {A} (m : M A) : option Z :=
  match snd m with Return code => Some code | _ => None end.
Definition exit_code {A} (m : M A) : option Z := DWORD_of_int <$> returned m.

Definition is_spawn (e : event) : bool :=
  match e with EvCreateProcessW _ _ => true | _ => false end.
Definition is_display (e : event) : bool :=
  match e with EvMessageBoxW _ _ | EvShowError _ _ => true | _ => false end.

(** The command lines CreateProcessW was called with. *)
Definition spawn_calls (tr : list event) : list wstr :=
  omap (fun e => match e with EvCreateProcessW c _ => Some c | _ => None end) tr.

(** Was CreateProcessW called at all / was anything shown to the user? *)
Definition spawned {A} (m : M A) : bool := existsb is_spawn (trace m).
Definition displayed {A} (m : M A) : bool := existsb is_display (trace m).

(** ** WinMain (lines 192-548) *)

(** The help text of lines 227-237. *)
Definition usage_text : wstr :=
  L "PS-Launcher Usage:" ++ [NEWLINE; NEWLINE] ++
  L "ps-launcher.exe -Script <script_path> [parameters]" ++ [NEWLINE; NEWLINE] ++
  L "Examples:" ++ [NEWLINE] ++
  L "  ps-launcher.exe -Script test.ps1" ++ [NEWLINE] ++
  L "  ps-launcher.exe -Script test.ps1 -FilePath " ++
    [DQUOTE] ++ L "C:\temp\test.txt" ++ [DQUOTE] ++ [NEWLINE] ++
  L "  ps-launcher.exe -Script test.ps1 -FileList " ++
    [DQUOTE] ++ L "file1.txt,file2.txt" ++ [DQUOTE] ++ [NEWLINE] ++
  L "  ps-launcher.exe -Script test.ps1 -Name " ++
    [DQUOTE] ++ L "John Doe" ++ [DQUOTE] ++ L " -Verbose" ++ [NEWLINE; NEWLINE] ++
  L "Notes:" ++ [NEWLINE] ++
  L "- Parameters with spaces must be quoted" ++ [NEWLINE] ++
  L "- Array parameters should be comma-separated within quotes" ++ [NEWLINE] ++
  L "- Returns 0 for success, 1 for errors or if no script specified".

Definition psRelative : wstr := L "WindowsPowerShell\v1.0\powershell.exe".
Definition interpreter_flags : wstr :=
  L " -NonInteractive -NoProfile -ExecutionPolicy Bypass -File ".

(** [args[i]] *)
Definition arg_at (args : list wstr) (i : nat) : wstr := nth i args [].

(** Lines 263-277: a backslash after the directory, unless it ends with one. *)
Definition ensure_separator (b : build) (psPath : buffer) (len : Z) : M buffer :=
  last ← lift (load psPath (len - 1));
  if negb (last =? BACKSLASH) then
    if len <? MAX_PATH - 1 then
      psPath ← lift (store psPath len BACKSLASH);
      lift (store psPath (len + 1) NUL)
    else
      LocalFree;;
      ShowError b (Text (L "System directory path too long.")) (L "Error");;
      return_ 1
  else mret psPath.

(** Lines 280-291: the relative path of the interpreter, appended. *)
Definition append_relative (b : build) (psPath : buffer) : M buffer :=
  n ← lift (buffer_strlen psPath);
  if n + lstrlenW psRelative >=? MAX_PATH then
    LocalFree;;
    ShowError b (Text (L "PowerShell path too long.")) (L "Error");;
    return_ 1
  else
    lift (lstrcatW psPath psRelative).

(** Lines 249-291: the interpreter path, built in the array psPath. *)
Definition path_construction (b : build) (h : host) : M buffer :=
  let psPath := replicate (Z.to_nat MAX_PATH) NUL in
  let '(psPath, len) := GetSystemDirectoryW h psPath MAX_PATH in
  if (len =? 0) || (len >? MAX_PATH - 1) then
    LocalFree;;
    ShowError b (Text (L "Failed to get system directory.")) (L "Error");;
    return_ 1
  else
    psPath ← ensure_separator b psPath len;
    append_relative b psPath.

(** Lines 297-310: both files must exist. *)
Definition file_validation (b : build) (h : host) (psPath : buffer)
    (args : list wstr) : M unit :=
  path ← lift (buffer_cstr psPath);
  if negb (GetFileAttributesW h path) then
    LocalFree;;
    ShowError b (Text (L "PowerShell executable not found.")) (L "Error");;
    return_ 1
  else if negb (GetFileAttributesW h (arg_at args 2)) then
    LocalFree;;
    ShowError b (Text (L "Specified script file not found.")) (L "Error");;
    return_ 1
  else mret tt.

Definition overflow_error (b : build) {A} : M A :=
  LocalFree;;
  ShowError b (Text (L "Buffer overflow error.")) (L "Error");;
  return_ 1.

(** The pattern of lines 320-331, 343-353, 365-375 and 384-394: one double
    quote written in place, then the terminator. *)
Definition append_quote (b : build) (st : buffer * Z) : M (buffer * Z) :=
  let '(cmd, pos) := st in
  if pos <? CMD_BUFFER_SIZE - 1 then
    cmd ← lift (store cmd pos DQUOTE);
    let pos := size_t (arch b) (pos + 1) in
    cmd ← lift (store cmd pos NUL);
    mret (cmd, pos)
  else overflow_error b.

(** A call [if (!AppendStr(cmd, CMD_BUFFER_SIZE, src, &pos)) { fail }]. *)
Definition append_or {A} (b : build) (st : buffer * Z) (src : wstr)
    (fail : M A) (k : buffer * Z -> M A) : M A :=
  let '(cmd, pos) := st in
  r ← lift (AppendStr (arch b) cmd CMD_BUFFER_SIZE src pos);
  match r with
  | (false, _, _) => fail
  | (true, cmd, pos) => k (cmd, pos)
  end.

(** Lines 316-394: quoted interpreter path, flags, quoted script path. *)
Definition command_line_building (b : build) (h : host) (psPath : buffer)
    (args : list wstr) : M (buffer * Z) :=
  let cmd := resize (Z.to_nat CMD_BUFFER_SIZE) NUL (stack_garbage h) in
  let pos := 0 in
  st ← append_quote b (cmd, pos);
  path ← lift (buffer_cstr psPath);
  append_or b st path (overflow_error b) (fun st =>
  st ← append_quote b st;
  append_or b st interpreter_flags (overflow_error b) (fun st =>
  st ← append_quote b st;
  append_or b st (arg_at args 2) (overflow_error b) (fun st =>
  append_quote b st))).

(** The scan of lines 404-413. *)
Fixpoint has_semicolon (s : wstr) : bool :=
  match s with
  | [] => false
  | c :: s' => if c =? SEMICOLON then true else has_semicolon s'
  end.

(** The scan of lines 449-457. *)
Fixpoint hasInternalQuotes (s : wstr) : bool :=
  match s with
  | [] => false
  | c :: s' => if c =? DQUOTE then true else hasInternalQuotes s'
  end.

(** Line 426.  The source evaluates the conjuncts left to right and stops
    at the first false one; none has an effect, so all three are evaluated
    here ([wchar_at] is total). *)
Definition alreadyQuoted (arg : wstr) : bool :=
  let argLen := lstrlenW arg in
  (argLen >=? 2) && (wchar_at arg 0 =? DQUOTE)
  && (wchar_at arg (argLen - 1) =? DQUOTE).

(** The body of the loop of lines 400-487, for [args[i]]. *)
Definition process_param (b : build) (arg : wstr) (st : buffer * Z)
    : M (buffer * Z) :=
  if has_semicolon arg then LocalFree;; return_ 1
  else
    append_or b st (L " ") (LocalFree;; return_ 1) (fun st =>
    if alreadyQuoted arg then
      append_or b st arg (overflow_error b) mret
    else
      append_or b st [DQUOTE] (overflow_error b) (fun st =>
      st ← (if hasInternalQuotes arg then
              let '(cmd, pos) := st in
              r ← lift (AppendEscaped (arch b) cmd CMD_BUFFER_SIZE arg pos);
              match r with
              | (false, _, _) => overflow_error b
              | (true, cmd, pos) => mret (cmd, pos)
              end
            else append_or b st arg (overflow_error b) mret);
      append_or b st [DQUOTE] (overflow_error b) mret)).

(** The loop of lines 400-487 over [args[3]], [args[4]], ... *)
Fixpoint parameter_processing (b : build) (params : list wstr)
    (st : buffer * Z) : M (buffer * Z) :=
  match params with
  | [] => mret st
  | arg :: params' =>
      st ← process_param b arg st;
      parameter_processing b params' st
  end.

(** Lines 506-547, for the command line the array cmd holds: start the
    child, wait for it, hand its exit code on. *)
Definition spawn (b : build) (h : host) (cmdline : wstr) : M Empty_set :=
  if negb (CreateProcessW h cmdline) then
    emit (EvCreateProcessW cmdline false);;
    let err := GetLastError h in
    emit (EvFormatMessageW err);;
    ShowError b (if DEBUG b then DebugText err cmdline else SystemErrorText err)
      (L "Process Creation Failed");;
    return_ (int_of_DWORD err)
  else
    emit (EvCreateProcessW cmdline true);;
    (if WaitForSingleObject h then emit EvWaitForSingleObject
     else ([EvWaitForSingleObject], Blocked));;
    emit EvGetExitCodeProcess;;
    let exitCode := default 0 (GetExitCodeProcess h) in
    emit (EvCloseHandle hProcess);;
    emit (EvCloseHandle hThread);;
    return_ (int_of_DWORD exitCode).

(** Lines 496-547: CreateProcessW reads its command line from cmd. *)
Definition process_creation (b : build) (h : host) (cmd : buffer) : M Empty_set :=
  cmdline ← lift (buffer_cstr cmd);
  spawn b h cmdline.

(** Lines 249-547: what WinMain does once the arguments are accepted. *)
Definition launch (b : build) (h : host) (args : list wstr) : M Empty_set :=
  psPath ← path_construction b h;
  file_validation b h psPath args;;
  st ← command_line_building b h psPath args;
  st ← parameter_processing b (drop 3 args) st;
  LocalFree;;
  process_creation b h (fst st).

(** Lines 223-243: too few tokens, or a first token other than the flag.
    [args[1]] is read in the source only when [argc >= 3]; [arg_at] is
    total, and the disjunction is true in the other case anyway. *)
Definition usage_error (args : list wstr) : bool :=
  let argc := Z.of_nat (length args) in
  (argc <? 3) || negb (lstrcmpiW (arg_at args 1) (L "-Script") =? 0).

Definition show_usage : M Empty_set :=
  emit (EvMessageBoxW usage_text (L "PS-Launcher Help"));;
  LocalFree;;
  return_ 1.

Definition WinMain (b : build) (h : host) : M Empty_set :=
  match CommandLineToArgvW h with
  | None =>
      ShowError b (Text (L "Failed to parse command line.")) (L "Error");;
      return_ 1
  | Some args => if usage_error args then show_usage else launch b h args
  end.

(** ** The command line as the specification words it *)

(** A parameter the caller has already wrapped: at least two characters,
    the first and the last a double quote. *)
Definition pre_quoted (p : wstr) : Prop :=
  2 <= lstrlenW p /\ head p = Some DQUOTE /\ last p = Some DQUOTE.

#[global] Instance pre_quoted_dec p : Decision (pre_quoted p).
Proof. unfold pre_quoted. apply _. Defined.

(** Every double quote replaced by a backslash and a double quote. *)
Definition spec_escape (p : wstr) : wstr :=
  flat_map (fun c => if bool_decide (c = DQUOTE) then [BACKSLASH; DQUOTE] else [c]) p.

(** A forwarded parameter as it is to appear: unmodified when pre-quoted,
    otherwise escaped and wrapped in one pair of double quotes. *)
Definition spec_param (p : wstr) : wstr :=
  if decide (pre_quoted p) then p else [DQUOTE] ++ spec_escape p ++ [DQUOTE].

(** Quoted interpreter path, the flags, quoted script path. *)
Definition spec_prefix (interpreter script : wstr) : wstr :=
  [DQUOTE] ++ interpreter ++ [DQUOTE] ++ interpreter_flags
  ++ [DQUOTE] ++ script ++ [DQUOTE].

(** Each forwarded parameter after one space, in order. *)
Definition spec_params (params : list wstr) : wstr :=
  concat (map (fun p => SPACE :: spec_param p) params).

Definition spec_command_line (interpreter script : wstr) (params : list wstr)
    : wstr :=
  spec_prefix interpreter script ++ spec_params params.

(** The interpreter path: the system directory, a backslash unless the
    directory ends with one, the fixed relative path. *)
Definition separator (dir : wstr) : wstr :=
  if decide (last dir = Some BACKSLASH) then [] else [BACKSLASH].

Definition spec_interpreter_path (dir : wstr) : wstr :=
  dir ++ separator dir ++ psRelative.

(** A path fits the array psPath when it and its terminator do. *)
Definition path_fits (s : wstr) : Prop := lstrlenW s + 1 <= MAX_PATH.

#[global] Instance path_fits_dec s : Decision (path_fits s).
Proof. unfold path_fits. apply _. Defined.

(** The host names a system directory from which the interpreter path can
    be built within MAX_PATH. *)
Definition resolvable (dir : wstr) : Prop :=
  dir <> [] /\ path_fits (spec_interpreter_path dir).

(** A text fits the command buffer when it and its terminator do. *)
Definition fits (s : wstr) : Prop := lstrlenW s + 1 <= CMD_BUFFER_SIZE.

#[global] Instance fits_dec s : Decision (fits s).
Proof. unfold fits. apply _. Defined.

(** ** Invariants of the command buffer *)

(** The first [pos] cells of the array are the text [s]. *)
Definition content (st : buffer * Z) (s : wstr) : Prop :=
  Z.of_nat (length (fst st)) = CMD_BUFFER_SIZE /\
  snd st = lstrlenW s /\ fits s /\ take (length s) (fst st) = s.

(** ... and the cell after them is the terminator. *)
Definition holds (st : buffer * Z) (s : wstr) : Prop :=
  content st s /\ fst st !! length s = Some NUL.

(** ** What the host may be assumed to do *)

Definition DWORD_ok (d : Z) : Prop := 0 <= d < 2 ^ 32.

Definition host_ok (h : host) : Prop :=
  (forall args, CommandLineToArgvW h = Some args -> Forall wstr_ok args) /\
  (forall dir, SystemDirectory h = Some dir -> wstr_ok dir) /\
  DWORD_ok (GetLastError h) /\
  (forall c, GetExitCodeProcess h = Some c -> DWORD_ok c).

(** An invocation the launcher carries through to CreateProcessW: the
    interpreter path can be built, both files exist, no forwarded
    parameter holds a semicolon, and the command line fits the buffer. *)
Definition launchable (h : host) (args : list wstr) (dir : wstr) : Prop :=
  SystemDirectory h = Some dir /\ resolvable dir /\
  GetFileAttributesW h (spec_interpreter_path dir) = true /\
  GetFileAttributesW h (arg_at args 2) = true /\
  existsb has_semicolon (drop 3 args) = false /\
  fits (spec_command_line (spec_interpreter_path dir) (arg_at args 2) (drop 3 args)).

(** The two ways the launcher stops once the arguments are accepted:
    free the argument array, show an error where dialogs are compiled
    in (some failures show none), return 1. *)
Definition bail_out (b : build) {A} (shown : option message) : M A :=
  LocalFree;;
  match shown with
  | Some msg => ShowError b msg (L "Error")
  | None => mret tt
  end;;
  return_ 1.

Definition aborts (b : build) {A} (m : M A) : Prop :=
  exists shown, m = bail_out b shown.

(** ** memset (lines 36-49) *)

(** The loop of lines 42-47 on an array of bytes: [*p++ = (unsigned char)c]
    while [count--] is not zero.  [ptr] is the index [p] has reached. *)
Fixpoint memset_loop (dest : list Z) (ptr : Z) (c : Z) (count : nat)
    : option (list Z) :=
  match count with
  | O => Some dest
  | S count' =>
      dest' ← store dest ptr (c mod 256);
      memset_loop dest' (ptr + 1) c count'
  end.

(** The array after the call; the pointer returned is [dest] itself. *)
Definition memset (dest : list Z) (c : Z) (count : Z) : option (list Z) :=
  memset_loop dest 0 c (Z.to_nat count).

(** ** NeedsQuoting (lines 151-161) *)

Definition TAB : WCHAR := 9.          (* the tabulator *)

(** The loop of lines 155-159. *)
Fixpoint NeedsQuoting_scan (s : wstr) : bool :=
  match s with
  | [] => false
  | c :: s' =>
      if (c =? SPACE) || (c =? TAB) || (c =? DQUOTE) then true
      else NeedsQuoting_scan s'
  end.

(** [None] is the null pointer. *)
Definition NeedsQuoting (str : option wstr) : bool :=
  match str with
  | None => true
  | Some [] => true
  | Some s => NeedsQuoting_scan s
  end.

(** The number of double quotes in a text. *)
Definition count_quotes (s : wstr) : nat :=
  length (filter (fun c => c = DQUOTE) s).

(** The cells a forwarded parameter takes in the command buffer, its
    separating space included: as the loop of lines 400-487 appends it. *)
Definition param_cost (arg : wstr) : Z :=
  if alreadyQuoted arg then 1 + lstrlenW arg
  else 3 + lstrlenW arg + Z.of_nat (count_quotes arg).

(** ** Reading a trace *)

(** How often LocalFree was called. *)
Fixpoint free_calls (tr : list event) : nat :=
  match tr with
  | [] => 0
  | EvLocalFree :: tr' => S (free_calls tr')
  | _ :: tr' => free_calls tr'
  end.

(** The handles CloseHandle was called with, in order. *)
Definition close_calls (tr : list event) : list handle :=
  omap (fun e => match e with EvCloseHandle hnd => Some hnd | _ => None end) tr.

(** Did a CreateProcessW call create a child? *)
Definition child_created (tr : list event) : bool :=
  existsb (fun e => match e with EvCreateProcessW _ true => true | _ => false end) tr.

(** ** Example invocations *)

(** A host on which everything is in place; the launcher is started as
    [ps-launcher.exe -script C:\test.ps1] followed by [params]. *)
Definition example_host (params : list wstr) : host := {|
  CommandLineToArgvW :=
    Some ([L "ps-launcher.exe"; L "-script"; L "C:\test.ps1"] ++ params);
  SystemDirectory := Some (L "C:\Windows\System32");
  GetFileAttributesW := fun _ => true;
  stack_garbage := [];
  CreateProcessW := fun _ => true;
  GetLastError := 2;
  WaitForSingleObject := true;
  GetExitCodeProcess := Some 3
|}.

(** As [example_host], for a script whose name holds a semicolon. *)
Definition semicolon_script_host : host := {|
  CommandLineToArgvW :=
    Some [L "ps-launcher.exe"; L "-Script"; L "C:\a;b.ps1"];
  SystemDirectory := Some (L "C:\Windows\System32");
  GetFileAttributesW := fun _ => true;
  stack_garbage := [];
  CreateProcessW := fun _ => true;
  GetLastError := 2;
  WaitForSingleObject := true;
  GetExitCodeProcess := Some 0
|}.

(** The launcher started with no arguments at all. *)
Definition bare_host : host := {|
  CommandLineToArgvW := Some [L "ps-launcher.exe"];
  SystemDirectory := Some (L "C:\Windows\System32");
  GetFileAttributesW := fun _ => true;
  stack_garbage := [];
  CreateProcessW := fun _ => true;
  GetLastError := 2;
  WaitForSingleObject := true;
  GetExitCodeProcess := Some 3
|}.

(** The command buffer holding the empty string. *)
Definition empty_cmd : buffer * Z := (replicate 1024 NUL, 0).

(** A command buffer with room for one more character only: 1022 letters
    and the terminator. *)
Definition nearly_full_cmd : buffer * Z := (replicate 1022 65 ++ [NUL; NUL], 1022).

(** The parameters of the scenarios: a pre-quoted name, a note with
    embedded quotes, and an injection attempt. *)
Definition john_doe : wstr := [DQUOTE] ++ L "John Doe" ++ [DQUOTE].
Definition say_hi : wstr := L "say " ++ [DQUOTE] ++ L "hi" ++ [DQUOTE] ++ L " now".
Definition a_semicolon_b : wstr := L "a;b".

(** * Proofs *)

(** Case analysis on the integer comparisons of the goal. *)
Ltac zcases :=
  rewrite ?Z.geb_leb, ?Z.gtb_ltb;
  repeat match goal with
  | |- context [?a <=? ?b] => destruct (Z.leb_spec a b)
  | |- context [?a <? ?b] => destruct (Z.ltb_spec a b)
  | |- context [?a =? ?b] => destruct (Z.eqb_spec a b)
  end.

(** ** Arrays *)

Lemma store_in_bounds (b : buffer) (n : nat) (c : Z) :
  (n < length b)%nat -> store b (Z.of_nat n) c = Some (<[n := c]> b).
Proof.
  intros Hn. unfold store.
  zcases; simpl; try lia. by rewrite Nat2Z.id.
Qed.

Lemma copy_loop_spec (src : wstr) : forall (dest : buffer) (n : nat),
  (n + length src <= length dest)%nat ->
  copy_loop dest (Z.of_nat n) src
  = Some (take n dest ++ src ++ drop (n + length src) dest).
Proof.
  induction src as [|c src IH]; intros dest n Hn; simpl in *.
  - by rewrite Nat.add_0_r, take_drop.
  - rewrite store_in_bounds by lia. simpl.
    replace (Z.of_nat n + 1) with (Z.of_nat (S n)) by lia.
    rewrite IH by (rewrite length_insert; lia).
    f_equal.
    rewrite (take_S_r _ _ c) by (apply list_lookup_insert_eq; lia).
    rewrite take_insert_ge by lia.
    rewrite drop_insert_lt by lia.
    rewrite <- app_assoc. simpl. do 4 f_equal. lia.
Qed.

Lemma size_t_small (t : target) (z : Z) : 0 <= z < 2 ^ 32 -> size_t t z = z.
Proof.
  intros Hz. unfold size_t. apply Z.mod_small.
  destruct t; simpl; lia.
Qed.

(** AppendStr on an array of [destSize] cells of which the first [n] are in
    use: it refuses exactly when text and terminator would not fit, and
    otherwise writes the text and a terminator behind the [n] cells. *)
Lemma AppendStr_spec (t : target) (dest : buffer) (src : wstr) (n : nat) :
  Z.of_nat n <= INT_MAX -> lstrlenW src <= INT_MAX ->
  (n <= length dest)%nat ->
  AppendStr t dest (Z.of_nat (length dest)) src (Z.of_nat n)
  = if decide (n + length src < length dest)%nat
    then Some (true,
               take n dest ++ src ++ NUL :: drop (S (n + length src)) dest,
               Z.of_nat (n + length src)%nat)
    else Some (false, dest, Z.of_nat n).
Proof.
  unfold INT_MAX, lstrlenW. intros Hn Hsrc Hdest. unfold AppendStr, lstrlenW.
  rewrite size_t_small by lia.
  destruct (decide (n + length src < length dest)%nat) as [Hfit|Hfit].
  - zcases; [lia|].
    rewrite copy_loop_spec by lia. simpl.
    replace (Z.of_nat n + Z.of_nat (length src)) with (Z.of_nat (n + length src)) by lia.
    rewrite store_in_bounds.
    2:{ rewrite !length_app, length_take, length_drop. lia. }
    simpl. do 3 f_equal.
    rewrite app_assoc.
    replace (n + length src)%nat with (length (take n dest ++ src) + 0)%nat at 1
      by (rewrite length_app, length_take; lia).
    rewrite insert_app_r.
    rewrite <- app_assoc. do 2 f_equal.
    destruct (drop (n + length src) dest) as [|x rest] eqn:Hd.
    + apply (f_equal length) in Hd. rewrite length_drop in Hd. simpl in Hd. lia.
    + simpl. f_equal.
      change rest with (drop 1 (x :: rest)). rewrite <- Hd, drop_drop.
      f_equal. lia.
  - zcases; [done|lia].
Qed.

(** ** Appends to the command buffer *)

Lemma content_length (st : buffer * Z) (s : wstr) :
  content st s -> length (fst st) = 1024%nat /\ (length s < 1024)%nat.
Proof.
  unfold content, fits, lstrlenW, CMD_BUFFER_SIZE. lia.
Qed.

Lemma fits_app_l (s1 s2 : wstr) : fits (s1 ++ s2) -> fits s1.
Proof. unfold fits, lstrlenW. rewrite length_app. lia. Qed.

Lemma AppendStr_fits (t : target) (st : buffer * Z) (s src : wstr) :
  content st s -> lstrlenW src <= INT_MAX -> fits (s ++ src) ->
  exists st',
    AppendStr t (fst st) CMD_BUFFER_SIZE src (snd st) = Some (true, fst st', snd st')
    /\ holds st' (s ++ src).
Proof.
  intros Hc Hsrc Hfit. destruct (content_length _ _ Hc) as [Hlen Hs].
  destruct st as [cmd pos]. destruct Hc as (Hsize & Hpos & _ & Htake). simpl in *.
  subst pos. rewrite <- Hsize. unfold lstrlenW in *.
  rewrite AppendStr_spec by (unfold lstrlenW, INT_MAX in *; lia).
  assert (Hf : (length s + length src < length cmd)%nat).
  { unfold fits, lstrlenW, CMD_BUFFER_SIZE in Hfit. rewrite length_app in Hfit. lia. }
  rewrite decide_True by done. rewrite Htake.
  eexists (_, _). simpl. split; [reflexivity|].
  repeat split; simpl.
  - rewrite !length_app. simpl. rewrite length_drop. lia.
  - unfold lstrlenW. by rewrite length_app.
  - done.
  - rewrite app_assoc. apply take_app_length.
  - rewrite app_assoc. apply list_lookup_middle. done.
Qed.

Lemma AppendStr_overflow (t : target) (st : buffer * Z) (s src : wstr) :
  content st s -> lstrlenW src <= INT_MAX -> ~ fits (s ++ src) ->
  AppendStr t (fst st) CMD_BUFFER_SIZE src (snd st) = Some (false, fst st, snd st).
Proof.
  intros Hc Hsrc Hfit. destruct (content_length _ _ Hc) as [Hlen Hs].
  destruct st as [cmd pos]. destruct Hc as (Hsize & Hpos & _ & Htake). simpl in *.
  subst pos. rewrite <- Hsize. unfold lstrlenW in *.
  rewrite AppendStr_spec by (unfold lstrlenW, INT_MAX in *; lia).
  rewrite decide_False; [done|].
  unfold fits, lstrlenW, CMD_BUFFER_SIZE in Hfit. rewrite length_app in Hfit. lia.
Qed.

Lemma spec_escape_cons (c : Z) (p : wstr) :
  spec_escape (c :: p)
  = (if c =? DQUOTE then escaped_quote else [c]) ++ spec_escape p.
Proof.
  unfold spec_escape. simpl. f_equal.
  case_bool_decide; zcases; done.
Qed.

(** AppendEscaped either appends the whole escaped text or reports
    failure; it never leaves the array. *)
Lemma AppendEscaped_fits (t : target) (src : wstr) : forall st s,
  holds st s -> lstrlenW src <= INT_MAX -> fits (s ++ spec_escape src) ->
  exists st',
    AppendEscaped t (fst st) CMD_BUFFER_SIZE src (snd st) = Some (true, fst st', snd st')
    /\ holds st' (s ++ spec_escape src).
Proof.
  induction src as [|c src IH]; intros st s Hh Hsrc Hfit.
  - exists st. simpl. rewrite app_nil_r. done.
  - rewrite spec_escape_cons, app_assoc in Hfit |- *.
    simpl AppendEscaped.
    destruct (AppendStr_fits t st s (if c =? DQUOTE then escaped_quote else [c]))
      as (st1 & E1 & H1).
    { apply Hh. } { destruct (c =? DQUOTE); compute; discriminate. }
    { eapply fits_app_l, Hfit. }
    assert (E : (if c =? DQUOTE
                 then AppendStr t st.1 CMD_BUFFER_SIZE escaped_quote st.2
                 else AppendStr t st.1 CMD_BUFFER_SIZE [c] st.2)
                = Some (true, st1.1, st1.2)).
    { destruct (c =? DQUOTE); exact E1. }
    rewrite E. simpl.
    destruct (IH st1 _ H1) as (st2 & E2 & H2); [|exact Hfit|].
    { unfold lstrlenW in *. simpl in Hsrc. lia. }
    exists st2. done.
Qed.

Lemma AppendEscaped_cases (t : target) (src : wstr) : forall st s,
  holds st s -> lstrlenW src <= INT_MAX ->
  (fits (s ++ spec_escape src) /\
   exists st',
     AppendEscaped t (fst st) CMD_BUFFER_SIZE src (snd st) = Some (true, fst st', snd st')
     /\ holds st' (s ++ spec_escape src))
  \/ (~ fits (s ++ spec_escape src) /\
      exists st',
        AppendEscaped t (fst st) CMD_BUFFER_SIZE src (snd st) = Some (false, fst st', snd st')).
Proof.
  intros st s Hh Hsrc.
  destruct (decide (fits (s ++ spec_escape src))) as [Hfit|Hfit]; [left|right].
  { split; [done|]. by apply AppendEscaped_fits. }
  split; [done|]. revert st s Hh Hsrc Hfit.
  induction src as [|c src IH]; intros st s Hh Hsrc Hfit.
  - exfalso. apply Hfit. simpl. rewrite app_nil_r. apply Hh.
  - rewrite spec_escape_cons, app_assoc in Hfit.
    simpl AppendEscaped.
    set (piece := if c =? DQUOTE then escaped_quote else [c]) in *.
    assert (Hp : lstrlenW piece <= INT_MAX).
    { unfold piece. destruct (c =? DQUOTE); compute; discriminate. }
    assert (E : (if c =? DQUOTE
                 then AppendStr t st.1 CMD_BUFFER_SIZE escaped_quote st.2
                 else AppendStr t st.1 CMD_BUFFER_SIZE [c] st.2)
                = AppendStr t st.1 CMD_BUFFER_SIZE piece st.2).
    { unfold piece. by destruct (c =? DQUOTE). }
    rewrite E. clear E.
    destruct (decide (fits (s ++ piece))) as [Hf|Hf].
    + destruct (AppendStr_fits t st s piece) as (st1 & E1 & H1); [apply Hh|done..|].
      rewrite E1. simpl.
      apply (IH st1 _ H1); [|done].
      unfold lstrlenW in *. simpl in Hsrc. lia.
    + rewrite (AppendStr_overflow t st s piece) by (done || apply Hh).
      simpl. by exists st.
Qed.

(** ** The program monad *)

Lemma M_ret_bind {A B} (a : A) (k : A -> M B) : (mret a ≫= k) = k a.
Proof. unfold mret, mbind, M_ret, M_bind. by destruct (k a). Qed.

Lemma lift_Some {A} (a : A) : lift (Some a) = mret a.
Proof. done. Qed.

Lemma bail_out_eq (b : build) {A} (shown : option message) :
  @bail_out b A shown
  = (EvLocalFree ::
       (if ENABLE_ERROR_DIALOGS b
        then match shown with
             | Some msg => [EvShowError msg (L "Error")]
             | None => []
             end
        else []),
     Return 1).
Proof.
  unfold bail_out, ShowError. by destruct shown, (ENABLE_ERROR_DIALOGS b).
Qed.

Lemma bail_out_bind (b : build) {A B} (shown : option message) (k : A -> M B) :
  (bail_out b shown ≫= k) = bail_out b shown.
Proof. by rewrite !bail_out_eq. Qed.

Lemma overflow_error_bails_out (b : build) {A} :
  @overflow_error b A = bail_out b (Some (Text (L "Buffer overflow error."))).
Proof. done. Qed.

Lemma aborts_bind (b : build) {A B} (m : M A) (k : A -> M B) :
  aborts b m -> aborts b (m ≫= k).
Proof. intros [shown ->]. exists shown. apply bail_out_bind. Qed.

Lemma aborts_returned (b : build) {A} (m : M A) :
  aborts b m -> returned m = Some 1 /\ spawned m = false.
Proof.
  intros [shown ->]. rewrite bail_out_eq.
  by destruct shown, (ENABLE_ERROR_DIALOGS b).
Qed.

Lemma aborts_silent (b : build) {A} (m : M A) :
  ENABLE_ERROR_DIALOGS b = false -> aborts b m -> trace m = [EvLocalFree].
Proof. intros Hb [shown ->]. rewrite bail_out_eq, Hb. done. Qed.

(** ** Steps of the command-line assembly *)

Ltac fits_lia :=
  unfold fits, lstrlenW, CMD_BUFFER_SIZE, INT_MAX in *;
  repeat (progress (rewrite ?length_app, ?length_cons in *));
  simpl length in *; lia.

Lemma append_quote_cases (b : build) (st : buffer * Z) (s : wstr) :
  content st s ->
  (fits (s ++ [DQUOTE]) /\
   exists st', append_quote b st = mret st' /\ holds st' (s ++ [DQUOTE]))
  \/ (~ fits (s ++ [DQUOTE]) /\ append_quote b st = overflow_error b).
Proof.
  intros Hc. destruct (content_length _ _ Hc) as [Hlen Hs].
  destruct st as [cmd pos]. destruct Hc as (Hsize & Hpos & Hfit & Htake).
  simpl in *. subst pos. unfold append_quote, lstrlenW.
  destruct (decide (fits (s ++ [DQUOTE]))) as [Hf|Hf]; [left|right]; (split; [done|]).
  - assert (Hn : (S (length s) < length cmd)%nat) by fits_lia.
    replace (_ <? _) with true by (symmetry; apply Z.ltb_lt; fits_lia).
    rewrite store_in_bounds by lia. rewrite lift_Some, M_ret_bind.
    rewrite size_t_small by lia.
    replace (Z.of_nat (length s) + 1) with (Z.of_nat (S (length s))) by lia.
    rewrite store_in_bounds by (rewrite length_insert; lia).
    rewrite lift_Some, M_ret_bind.
    eexists. split; [reflexivity|].
    repeat split; simpl.
    + rewrite !length_insert. done.
    + unfold lstrlenW. rewrite length_app. simpl. lia.
    + done.
    + rewrite length_app. simpl. rewrite Nat.add_1_r.
      rewrite take_insert_ge by lia.
      rewrite (take_S_r _ _ DQUOTE) by (apply list_lookup_insert_eq; lia).
      rewrite take_insert_ge by lia. by rewrite Htake.
    + rewrite length_app. simpl. rewrite Nat.add_1_r.
      apply list_lookup_insert_eq. rewrite length_insert. lia.
  - replace (_ <? _) with false by (symmetry; apply Z.ltb_ge; fits_lia).
    done.
Qed.

Lemma append_or_cases (b : build) (st : buffer * Z) (s src : wstr) :
  content st s -> lstrlenW src <= INT_MAX ->
  (fits (s ++ src) /\
   exists st', holds st' (s ++ src) /\
     forall A (fail : M A) k, append_or b st src fail k = k st')
  \/ (~ fits (s ++ src) /\
      forall A (fail : M A) k, append_or b st src fail k = fail).
Proof.
  intros Hc Hsrc. destruct (decide (fits (s ++ src))) as [Hf|Hf]; [left|right].
  - split; [done|].
    destruct (AppendStr_fits (arch b) st s src Hc Hsrc Hf) as (st' & E & H').
    exists st'. split; [done|]. intros A fail k.
    unfold append_or. destruct st as [cmd pos]. simpl in E. rewrite E.
    rewrite lift_Some, M_ret_bind. by destruct st'.
  - split; [done|]. intros A fail k.
    unfold append_or. destruct st as [cmd pos].
    pose proof (AppendStr_overflow (arch b) (cmd, pos) s src Hc Hsrc Hf) as E.
    simpl in E. rewrite E.
    by rewrite lift_Some, M_ret_bind.
Qed.

Lemma overflow_error_bind (b : build) {A B} (k : A -> M B) :
  (overflow_error b ≫= k) = overflow_error b.
Proof. rewrite !overflow_error_bails_out. apply bail_out_bind. Qed.

Lemma content_initial (garbage : buffer) :
  content (resize (Z.to_nat CMD_BUFFER_SIZE) NUL garbage, 0) [].
Proof.
  repeat split; simpl.
  - rewrite length_resize. done.
  - unfold fits, lstrlenW, CMD_BUFFER_SIZE. simpl. lia.
Qed.

(** One in-place quote, then either on with the run or out of it. *)
Ltac quote_step b H st' H' :=
  let Hf := fresh "Hf" in
  destruct (append_quote_cases b _ _ H) as [(_ & st' & -> & H') | (Hf & ->)];
  [ rewrite ?M_ret_bind | ].

(** One guarded AppendStr call. *)
Ltac append_step b H Hsrc st' H' :=
  let Hf := fresh "Hf" in
  let E := fresh "E" in
  destruct (append_or_cases b _ _ _ H Hsrc) as [(_ & st' & H' & E) | (Hf & E)];
  rewrite E; clear E; cbv beta.

Ltac overflows :=
  right; split; [unfold spec_command_line, spec_prefix in *; fits_lia
                | by rewrite ?overflow_error_bind].

(** Lines 316-394 build exactly the quoted prefix, or stop the run when it
    does not fit. *)
Lemma command_line_building_cases (b : build) (h : host) (psPath : buffer)
    (path : wstr) (args : list wstr) :
  buffer_cstr psPath = Some path ->
  lstrlenW path <= INT_MAX -> lstrlenW (arg_at args 2) <= INT_MAX ->
  (fits (spec_prefix path (arg_at args 2)) /\
   exists st, command_line_building b h psPath args = mret st
              /\ holds st (spec_prefix path (arg_at args 2)))
  \/ (~ fits (spec_prefix path (arg_at args 2)) /\
      command_line_building b h psPath args = overflow_error b).
Proof.
  intros Hpath Hlen Hscript. unfold command_line_building.
  assert (Hflags : lstrlenW interpreter_flags <= INT_MAX) by (compute; discriminate).
  pose proof (content_initial (stack_garbage h)) as H0.
  quote_step b H0 st1 H1; [|overflows].
  rewrite Hpath, lift_Some, M_ret_bind.
  append_step b (proj1 H1) Hlen st2 H2; [|overflows].
  quote_step b (proj1 H2) st3 H3; [|overflows].
  append_step b (proj1 H3) Hflags st4 H4; [|overflows].
  quote_step b (proj1 H4) st5 H5; [|overflows].
  append_step b (proj1 H5) Hscript st6 H6; [|overflows].
  quote_step b (proj1 H6) st7 H7; [|overflows].
  left. unfold spec_prefix. rewrite <- ?app_assoc in H7. simpl app in H7.
  split; [apply H7|]. by exists st7.
Qed.

(** ** The loop over the forwarded parameters *)

Lemma has_semicolon_In (s : wstr) : has_semicolon s = true <-> SEMICOLON ∈ s.
Proof.
  induction s as [|c s IH]; simpl.
  - split; [discriminate|]. by intros ?%elem_of_nil.
  - rewrite elem_of_cons, <- IH. destruct (Z.eqb_spec c SEMICOLON); intuition congruence.
Qed.

Lemma hasInternalQuotes_In (s : wstr) : hasInternalQuotes s = true <-> DQUOTE ∈ s.
Proof.
  induction s as [|c s IH]; simpl.
  - split; [discriminate|]. by intros ?%elem_of_nil.
  - rewrite elem_of_cons, <- IH. destruct (Z.eqb_spec c DQUOTE); intuition congruence.
Qed.

Lemma spec_escape_no_quote (s : wstr) : DQUOTE ∉ s -> spec_escape s = s.
Proof.
  induction s as [|c s IH]; [done|].
  rewrite not_elem_of_cons. intros [Hc Hs].
  rewrite spec_escape_cons, IH by done.
  destruct (Z.eqb_spec c DQUOTE); [congruence|done].
Qed.

Lemma alreadyQuoted_iff (arg : wstr) :
  alreadyQuoted arg = true <-> pre_quoted arg.
Proof.
  unfold alreadyQuoted, pre_quoted, wchar_at, lstrlenW.
  rewrite (head_lookup arg), (last_lookup arg), !nth_lookup.
  replace (Z.to_nat (Z.of_nat (length arg) - 1)) with (pred (length arg)) by lia.
  rewrite Z.geb_leb.
  destruct (Z.leb_spec 2 (Z.of_nat (length arg))) as [Hl|Hl]; simpl.
  - destruct (lookup_lt_is_Some_2 arg 0%nat) as [x Hx]; [lia|].
    destruct (lookup_lt_is_Some_2 arg (pred (length arg))) as [y Hy]; [lia|].
    change (Z.to_nat 0) with 0%nat. rewrite Hx, Hy. simpl.
    destruct (Z.eqb_spec x DQUOTE), (Z.eqb_spec y DQUOTE); simpl;
      intuition congruence.
  - split; [discriminate|]. lia.
Qed.

Lemma alreadyQuoted_spec (arg : wstr) :
  alreadyQuoted arg = bool_decide (pre_quoted arg).
Proof.
  destruct (alreadyQuoted arg) eqn:E; symmetry.
  - by apply bool_decide_eq_true, alreadyQuoted_iff.
  - apply bool_decide_eq_false. rewrite <- alreadyQuoted_iff. congruence.
Qed.

(** A parameter with a semicolon ends the run before anything is appended. *)
Lemma process_param_semicolon (b : build) (arg : wstr) (st : buffer * Z) :
  has_semicolon arg = true -> process_param b arg st = bail_out b None.
Proof. intros H. unfold process_param. rewrite H. done. Qed.

Ltac bails_out :=
  right; split;
  [ fits_lia
  | eexists; rewrite ?overflow_error_bind, ?overflow_error_bails_out; reflexivity ].

(** Without a semicolon the parameter is appended in its specified form,
    or the run stops because that form does not fit. *)
Lemma process_param_cases (b : build) (arg : wstr) (st : buffer * Z) (s : wstr) :
  holds st s -> lstrlenW arg <= INT_MAX -> has_semicolon arg = false ->
  (fits (s ++ SPACE :: spec_param arg) /\
   exists st', process_param b arg st = mret st'
               /\ holds st' (s ++ SPACE :: spec_param arg))
  \/ (~ fits (s ++ SPACE :: spec_param arg) /\ aborts b (process_param b arg st)).
Proof.
  intros H0 Harg Hsemi. unfold process_param. rewrite Hsemi.
  change (L " ") with [SPACE].
  assert (Hsp : lstrlenW [SPACE] <= INT_MAX) by (compute; discriminate).
  assert (Hq : lstrlenW [DQUOTE] <= INT_MAX) by (compute; discriminate).
  rewrite alreadyQuoted_spec. unfold spec_param.
  append_step b (proj1 H0) Hsp st1 H1.
  2:{ right. split; [case_decide; fits_lia | by exists None]. }
  case_bool_decide as Hpre.
  - rewrite decide_True by done.
    append_step b (proj1 H1) Harg st2 H2; [|bails_out].
    left. rewrite <- ?app_assoc in H2. simpl app in H2.
    split; [apply H2|]. by exists st2.
  - rewrite decide_False by done.
    append_step b (proj1 H1) Hq st2 H2; [|bails_out].
    destruct (hasInternalQuotes arg) eqn:Hint.
    + destruct st2 as [cmd pos].
      destruct (AppendEscaped_cases (arch b) arg (cmd, pos) _ H2 Harg)
        as [(_ & st3 & E & H3) | (Hf & st3 & E)]; simpl in E; rewrite E;
        rewrite lift_Some, M_ret_bind; [|bails_out].
      destruct st3 as [cmd3 pos3]. simpl fst. simpl snd. rewrite M_ret_bind.
      append_step b (proj1 H3) Hq st4 H4; [|bails_out].
      left. rewrite <- ?app_assoc in H4. simpl app in H4.
      split; [apply H4|]. by exists st4.
    + assert (Hno : DQUOTE ∉ arg).
      { rewrite <- hasInternalQuotes_In. congruence. }
      rewrite (spec_escape_no_quote arg Hno).
      append_step b (proj1 H2) Harg st3 H3; [|bails_out].
      rewrite M_ret_bind.
      append_step b (proj1 H3) Hq st4 H4; [|bails_out].
      left. rewrite <- ?app_assoc in H4. simpl app in H4.
      split; [apply H4|]. by exists st4.
Qed.

Lemma spec_params_cons (p : wstr) (ps : list wstr) :
  spec_params (p :: ps) = (SPACE :: spec_param p) ++ spec_params ps.
Proof. done. Qed.

(** The loop appends every parameter in its specified form, in order, or
    stops the run: at the first semicolon, or where the text stops fitting. *)
Lemma parameter_processing_cases (b : build) (params : list wstr) :
  forall st s, holds st s -> Forall wstr_ok params ->
  (existsb has_semicolon params = false /\ fits (s ++ spec_params params) /\
   exists st', parameter_processing b params st = mret st'
               /\ holds st' (s ++ spec_params params))
  \/ ((existsb has_semicolon params = true \/ ~ fits (s ++ spec_params params))
      /\ aborts b (parameter_processing b params st)).
Proof.
  induction params as [|arg ps IH]; intros st s H0 Hok.
  - left. simpl. rewrite app_nil_r. split; [done|]. split; [apply H0|]. by exists st.
  - apply Forall_cons in Hok as [[_ Harg] Hps].
    rewrite spec_params_cons, app_assoc. simpl existsb. simpl parameter_processing.
    destruct (has_semicolon arg) eqn:Hsemi.
    { right. split; [by left|].
      rewrite process_param_semicolon by done. apply aborts_bind. by exists None. }
    destruct (process_param_cases b arg st s H0 Harg Hsemi)
      as [(Hf & st1 & -> & H1) | (Hnf & Hab)].
    + rewrite M_ret_bind.
      destruct (IH st1 _ H1 Hps) as [(Hns & Hfit & st' & E & H') | (Hbad & Hab)].
      * left. simpl. by eauto.
      * right. by split.
    + right. split; [|by apply aborts_bind].
      right. intros Hf. by apply fits_app_l in Hf.
Qed.

(** ** The interpreter path *)

Lemma buffer_strlen_app (s rest : buffer) :
  Forall (fun c => c <> NUL) s ->
  buffer_strlen (s ++ NUL :: rest) = Some (lstrlenW s).
Proof.
  unfold lstrlenW. induction 1 as [|c s Hc Hs IH]; simpl.
  - done.
  - destruct (Z.eqb_spec c NUL); [done|]. rewrite IH. simpl. f_equal. lia.
Qed.

Lemma buffer_cstr_app (s rest : buffer) :
  Forall (fun c => c <> NUL) s -> buffer_cstr (s ++ NUL :: rest) = Some s.
Proof.
  intros Hs. unfold buffer_cstr. rewrite buffer_strlen_app by done. simpl.
  unfold lstrlenW. rewrite Nat2Z.id. f_equal. apply take_app_length.
Qed.

Lemma wstr_ok_no_NUL (s : wstr) : wstr_ok s -> Forall (fun c => c <> NUL) s.
Proof. intros [Hs _]. eapply Forall_impl; [exact Hs|]. unfold NUL. simpl. lia. Qed.

Lemma lstrcatW_spec (s rest : buffer) (src : wstr) :
  Forall (fun c => c <> NUL) s -> (length src <= length rest)%nat ->
  lstrcatW (s ++ NUL :: rest) src
  = Some (s ++ src ++ NUL :: drop (length src) rest).
Proof.
  intros Hs Hlen. unfold lstrcatW. rewrite buffer_strlen_app by done. simpl.
  unfold lstrlenW.
  rewrite copy_loop_spec by (rewrite length_app; simpl; lia). simpl.
  rewrite take_app_length.
  replace (Z.of_nat (length s) + Z.of_nat (length src))
    with (Z.of_nat (length (s ++ src) + 0)) by (rewrite length_app; lia).
  rewrite app_assoc.
  rewrite store_in_bounds.
  2:{ rewrite !length_app, length_drop, length_app. simpl. lia. }
  rewrite insert_app_r, <- app_assoc. do 3 f_equal.
  rewrite drop_app_add.
  destruct src as [|c src]; simpl.
  - done.
  - destruct (drop (length src) rest) as [|x r] eqn:Hd.
    + apply (f_equal length) in Hd. rewrite length_drop in Hd. simpl in *. lia.
    + simpl. f_equal. change r with (drop 1 (x :: r)). rewrite <- Hd, drop_drop.
      f_equal. lia.
Qed.

Lemma psRelative_no_NUL : Forall (fun c => c <> NUL) psRelative.
Proof. apply (bool_decide_unpack _). by vm_compute. Qed.

Lemma append_relative_cases (b : build) (s rest : buffer) :
  Forall (fun c => c <> NUL) s ->
  Z.of_nat (length (s ++ NUL :: rest)) = MAX_PATH ->
  (path_fits (s ++ psRelative) /\
   exists psPath, append_relative b (s ++ NUL :: rest) = mret psPath
                  /\ buffer_cstr psPath = Some (s ++ psRelative))
  \/ (~ path_fits (s ++ psRelative) /\ aborts b (append_relative b (s ++ NUL :: rest))).
Proof.
  intros Hs Hlen. unfold append_relative.
  rewrite buffer_strlen_app, lift_Some, M_ret_bind by done.
  rewrite length_app in Hlen. simpl in Hlen.
  unfold path_fits, lstrlenW. rewrite length_app.
  zcases; [right|left]; (split; [lia|]).
  - by eexists (Some _).
  - rewrite lstrcatW_spec by (done || lia). rewrite lift_Some.
    eexists. split; [done|].
    rewrite app_assoc. apply buffer_cstr_app.
    apply Forall_app. split; [done | apply psRelative_no_NUL].
Qed.

Lemma ensure_separator_cases (b : build) (dir rest : buffer) :
  dir <> [] -> Z.of_nat (length (dir ++ NUL :: rest)) = MAX_PATH ->
  (path_fits (dir ++ separator dir) /\
   exists rest',
     ensure_separator b (dir ++ NUL :: rest) (lstrlenW dir)
     = mret ((dir ++ separator dir) ++ NUL :: rest')
     /\ Z.of_nat (length ((dir ++ separator dir) ++ NUL :: rest')) = MAX_PATH)
  \/ (~ path_fits (dir ++ separator dir) /\
      aborts b (ensure_separator b (dir ++ NUL :: rest) (lstrlenW dir))).
Proof.
  intros Hdir Hlen. unfold ensure_separator, path_fits, lstrlenW, MAX_PATH in *.
  rewrite length_app in Hlen. simpl in Hlen.
  assert (Hpos : (0 < length dir)%nat) by (destruct dir; [done | simpl; lia]).
  assert (Hload : load (dir ++ NUL :: rest) (Z.of_nat (length dir) - 1) = last dir).
  { unfold load. rewrite length_app. simpl.
    zcases; simpl; try lia.
    replace (Z.to_nat (Z.of_nat (length dir) - 1)) with (pred (length dir)) by lia.
    rewrite lookup_app_l by lia. by rewrite last_lookup. }
  rewrite Hload. unfold separator.
  destruct (last dir) as [c|] eqn:Hlast.
  2:{ apply last_None in Hlast. done. }
  rewrite lift_Some, M_ret_bind.
  destruct (Z.eqb_spec c BACKSLASH) as [->|Hc]; simpl negb; cbv iota.
  - rewrite decide_True by done. left. rewrite app_nil_r. split; [lia|].
    exists rest. split; [done|]. rewrite length_app. simpl. lia.
  - rewrite decide_False by congruence.
    rewrite length_app. simpl length.
    zcases; [left|right]; (split; [lia|]).
    + rewrite store_in_bounds by (rewrite length_app; simpl; lia).
      rewrite insert_app_r_alt, Nat.sub_diag by lia.
      rewrite lift_Some, M_ret_bind.
      replace (Z.of_nat (length dir) + 1) with (Z.of_nat (S (length dir))) by lia.
      rewrite store_in_bounds by (rewrite length_app; simpl; lia).
      rewrite insert_app_r_alt by lia.
      replace (S (length dir) - length dir)%nat with 1%nat by lia.
      destruct rest as [|x r]; [simpl in *; lia|]. simpl.
      exists r. rewrite <- app_assoc. simpl. split; [done|].
      rewrite length_app. simpl in *. lia.
    + by eexists (Some _).
Qed.

(** Lines 249-291: the interpreter path is the specified one, or the run
    stops: no directory, or a path beyond MAX_PATH. *)
Lemma path_construction_cases (b : build) (h : host) :
  (forall dir, SystemDirectory h = Some dir -> wstr_ok dir) ->
  (exists dir,
     SystemDirectory h = Some dir /\ resolvable dir /\
     exists psPath, path_construction b h = mret psPath
                    /\ buffer_cstr psPath = Some (spec_interpreter_path dir))
  \/ ((SystemDirectory h = None \/
       exists dir, SystemDirectory h = Some dir /\ ~ resolvable dir)
      /\ aborts b (path_construction b h)).
Proof.
  intros Hok. unfold path_construction, GetSystemDirectoryW.
  destruct (SystemDirectory h) as [dir|] eqn:Hdir.
  2:{ right. split; [by left|]. simpl. by eexists (Some _). }
  specialize (Hok dir eq_refl). pose proof (wstr_ok_no_NUL dir Hok) as Hnz.
  assert (Hsep : Forall (fun c => c <> NUL) (dir ++ separator dir)).
  { apply Forall_app. split; [done|]. unfold separator.
    case_decide; repeat constructor. discriminate. }
  unfold resolvable, spec_interpreter_path, path_fits.
  destruct (Z.ltb_spec (lstrlenW dir) MAX_PATH) as [Hlt|Hge].
  2:{ right. split.
      - right. exists dir. split; [done|]. intros [_ Hf].
        unfold lstrlenW in *. rewrite !length_app in Hf. lia.
      - replace (_ || _) with true; [by eexists (Some _)|].
        symmetry. apply orb_true_intro. right. apply Z.gtb_lt.
        unfold MAX_PATH in *. lia. }
  destruct (Z.eqb_spec (lstrlenW dir) 0) as [Hz|Hnz0].
  { right. split.
    - right. exists dir. split; [done|]. intros [Hne _].
      destruct dir; [done|]. unfold lstrlenW in Hz. simpl in Hz. lia.
    - by eexists (Some _). }
  replace (lstrlenW dir >? MAX_PATH - 1) with false
    by (symmetry; rewrite Z.gtb_ltb; apply Z.ltb_ge; lia).
  simpl orb. cbv iota.
  assert (Hne : dir <> []) by (intros ->; by apply Hnz0).
  assert (Hlen : Z.of_nat (length (dir ++ NUL ::
            drop (S (length dir)) (replicate (Z.to_nat MAX_PATH) NUL))) = MAX_PATH).
  { rewrite length_app, length_cons, length_drop, length_replicate.
    unfold lstrlenW, MAX_PATH in *. lia. }
  destruct (ensure_separator_cases b dir _ Hne Hlen)
    as [(Hf1 & rest' & -> & Hlen') | (Hnf & Hab)].
  2:{ right. split; [|by apply aborts_bind].
      right. exists dir. split; [done|]. intros [_ Hf]. apply Hnf.
      unfold path_fits, lstrlenW in *. rewrite !length_app in *. lia. }
  rewrite M_ret_bind.
  destruct (append_relative_cases b _ rest' Hsep Hlen')
    as [(Hf2 & psPath & -> & Hc) | (Hnf & Hab)].
  - left. exists dir. rewrite <- app_assoc in Hf2, Hc. eauto 10.
  - right. split; [|done]. right. exists dir. split; [done|].
    intros [_ Hf]. apply Hnf. by rewrite <- app_assoc.
Qed.

(** ** The run as a whole *)

Lemma file_validation_cases (b : build) (h : host) (psPath : buffer)
    (path : wstr) (args : list wstr) :
  buffer_cstr psPath = Some path ->
  (GetFileAttributesW h path = true /\ GetFileAttributesW h (arg_at args 2) = true
   /\ file_validation b h psPath args = mret tt)
  \/ ((GetFileAttributesW h path = false \/ GetFileAttributesW h (arg_at args 2) = false)
      /\ aborts b (file_validation b h psPath args)).
Proof.
  intros Hc. unfold file_validation. rewrite Hc, lift_Some, M_ret_bind.
  destruct (GetFileAttributesW h path); simpl negb; cbv iota.
  - destruct (GetFileAttributesW h (arg_at args 2)); simpl negb; cbv iota.
    + by left.
    + right. split; [by right|]. by eexists (Some _).
  - right. split; [by left|]. by eexists (Some _).
Qed.

Lemma holds_cstr (st : buffer * Z) (s : wstr) :
  holds st s -> Forall (fun c => c <> NUL) s -> buffer_cstr (fst st) = Some s.
Proof.
  intros [(_ & _ & _ & Htake) Hnul] Hs.
  rewrite <- (take_drop_middle _ _ _ Hnul), Htake. by apply buffer_cstr_app.
Qed.

Lemma spec_escape_no_NUL (p : wstr) :
  Forall (fun c => c <> NUL) p -> Forall (fun c => c <> NUL) (spec_escape p).
Proof.
  induction 1 as [|c p Hc Hp IH]; [constructor|].
  rewrite spec_escape_cons. apply Forall_app. split; [|done].
  destruct (c =? DQUOTE); repeat constructor; done.
Qed.

Lemma spec_param_no_NUL (p : wstr) :
  Forall (fun c => c <> NUL) p -> Forall (fun c => c <> NUL) (spec_param p).
Proof.
  intros Hp. unfold spec_param. case_decide; [done|].
  apply Forall_app. split; [repeat constructor; done|].
  apply Forall_app. split; [by apply spec_escape_no_NUL|repeat constructor; done].
Qed.

Lemma spec_params_no_NUL (params : list wstr) :
  Forall wstr_ok params -> Forall (fun c => c <> NUL) (spec_params params).
Proof.
  induction 1 as [|p ps Hp Hps IH]; [constructor|].
  rewrite spec_params_cons. apply Forall_app. split; [|done].
  constructor; [done|]. by apply spec_param_no_NUL, wstr_ok_no_NUL.
Qed.

Lemma interpreter_flags_no_NUL : Forall (fun c => c <> NUL) interpreter_flags.
Proof. apply (bool_decide_unpack _). by vm_compute. Qed.

Lemma spec_interpreter_path_no_NUL (dir : wstr) :
  wstr_ok dir -> Forall (fun c => c <> NUL) (spec_interpreter_path dir).
Proof.
  intros Hd. unfold spec_interpreter_path, separator.
  apply Forall_app. split; [by apply wstr_ok_no_NUL|].
  apply Forall_app. split; [|apply psRelative_no_NUL].
  case_decide; repeat constructor; done.
Qed.

Lemma spec_command_line_no_NUL (path script : wstr) (params : list wstr) :
  Forall (fun c => c <> NUL) path -> wstr_ok script -> Forall wstr_ok params ->
  Forall (fun c => c <> NUL) (spec_command_line path script params).
Proof.
  intros Hp Hs Hps. unfold spec_command_line, spec_prefix.
  repeat (apply Forall_app; split);
    auto using interpreter_flags_no_NUL, wstr_ok_no_NUL, spec_params_no_NUL;
    repeat constructor; done.
Qed.

Lemma wstr_ok_nil : wstr_ok [].
Proof. split; [constructor|]. compute. discriminate. Qed.

Lemma arg_at_ok (args : list wstr) (i : nat) :
  Forall wstr_ok args -> wstr_ok (arg_at args i).
Proof.
  intros Hargs. unfold arg_at. rewrite nth_lookup.
  destruct (args !! i) as [a|] eqn:E; simpl; [|apply wstr_ok_nil].
  eapply Forall_lookup_1; eauto.
Qed.

Lemma path_length_ok (s : wstr) : path_fits s -> lstrlenW s <= INT_MAX.
Proof. unfold path_fits, MAX_PATH, INT_MAX. lia. Qed.

(** Once the arguments are accepted the run has two shapes: it reaches
    CreateProcessW with the specified command line, or it stops. *)
Lemma launch_cases (b : build) (h : host) (args : list wstr) :
  host_ok h -> Forall wstr_ok args ->
  (exists dir,
     launchable h args dir /\
     launch b h args
     = (LocalFree;;
        spawn b h (spec_command_line (spec_interpreter_path dir)
                     (arg_at args 2) (drop 3 args))))
  \/ ((forall dir, ~ launchable h args dir) /\ aborts b (launch b h args)).
Proof.
  intros (_ & Hdirok & _) Hargs. unfold launch.
  pose proof (arg_at_ok args 2 Hargs) as Hscript.
  assert (Hparams : Forall wstr_ok (drop 3 args)) by by apply Forall_drop.
  destruct (path_construction_cases b h Hdirok)
    as [(dir & Hdir & Hres & psPath & -> & Hc) | (Hbad & Hab)].
  2:{ right. split; [|by apply aborts_bind].
      intros dir (Hd & Hr & _).
      destruct Hbad as [Hn | (dir' & Hd' & Hnr)]; [congruence|].
      rewrite Hd in Hd'. by simplify_eq. }
  rewrite M_ret_bind.
  assert (Hsame : forall dir', launchable h args dir' -> dir' = dir).
  { intros dir' (Hd & _). congruence. }
  destruct (file_validation_cases b h psPath _ args Hc)
    as [(Hx1 & Hx2 & ->) | (Hbad & Hab)].
  2:{ right. split; [|by apply aborts_bind].
      intros dir' Hl. pose proof (Hsame _ Hl) as ->.
      destruct Hl as (_ & _ & H1 & H2 & _). destruct Hbad; congruence. }
  rewrite M_ret_bind.
  destruct (command_line_building_cases b h psPath _ args Hc)
    as [(Hf & st & -> & Hst) | (Hnf & ->)].
  { apply path_length_ok, Hres. } { apply Hscript. }
  2:{ right. split; [|rewrite overflow_error_bind; by eexists (Some _)].
      intros dir' Hl. pose proof (Hsame _ Hl) as ->.
      destruct Hl as (_ & _ & _ & _ & _ & Hfit). apply Hnf.
      by apply fits_app_l in Hfit. }
  rewrite M_ret_bind.
  destruct (parameter_processing_cases b (drop 3 args) st _ Hst Hparams)
    as [(Hns & Hfit & st' & -> & Hst') | (Hbad & Hab)].
  2:{ right. split; [|by apply aborts_bind].
      intros dir' Hl. pose proof (Hsame _ Hl) as ->.
      destruct Hl as (_ & _ & _ & _ & Hns & Hfit).
      destruct Hbad; [congruence|done]. }
  rewrite M_ret_bind. left. exists dir. split; [done|].
  unfold process_creation.
  rewrite (holds_cstr _ _ Hst'), lift_Some, M_ret_bind; [done|].
  apply spec_command_line_no_NUL; auto.
  apply spec_interpreter_path_no_NUL; auto.
Qed.

Lemma usage_error_iff (args : list wstr) :
  usage_error args = true
  <-> (length args < 3)%nat \/ lstrcmpiW (arg_at args 1) (L "-Script") <> 0.
Proof.
  unfold usage_error. rewrite orb_true_iff, negb_true_iff, Z.ltb_lt, Z.eqb_neq. lia.
Qed.

Lemma lstrcmpiW_0_iff (s1 s2 : wstr) :
  lstrcmpiW s1 s2 = 0 <-> map fold_case s1 = map fold_case s2.
Proof.
  revert s2. induction s1 as [|c1 s1 IH]; intros [|c2 s2]; simpl; try done.
  destruct (Z.ltb_spec (fold_case c1) (fold_case c2)).
  { split; [done|]. intros [=]. lia. }
  destruct (Z.ltb_spec (fold_case c2) (fold_case c1)).
  { split; [done|]. intros [=]. lia. }
  rewrite IH. split; [intros ->; f_equal; lia | by intros [=]].
Qed.

Lemma WinMain_usage (b : build) (h : host) (args : list wstr) :
  CommandLineToArgvW h = Some args -> usage_error args = true ->
  WinMain b h = show_usage.
Proof. intros Ha Hu. unfold WinMain. by rewrite Ha, Hu. Qed.

Lemma WinMain_launch (b : build) (h : host) (args : list wstr) :
  CommandLineToArgvW h = Some args -> usage_error args = false ->
  WinMain b h = launch b h args.
Proof. intros Ha Hu. unfold WinMain. by rewrite Ha, Hu. Qed.

(** Every run either reaches CreateProcessW with the specified command
    line, or returns 1 without having called it. *)
Lemma WinMain_cases (b : build) (h : host) :
  host_ok h ->
  (exists args dir,
     CommandLineToArgvW h = Some args /\ usage_error args = false /\
     launchable h args dir /\
     WinMain b h
     = (LocalFree;;
        spawn b h (spec_command_line (spec_interpreter_path dir)
                     (arg_at args 2) (drop 3 args))))
  \/ ((forall args dir, CommandLineToArgvW h = Some args ->
         usage_error args = false -> ~ launchable h args dir)
      /\ returned (WinMain b h) = Some 1 /\ spawned (WinMain b h) = false).
Proof.
  intros Hok. destruct (CommandLineToArgvW h) as [args|] eqn:Ha.
  2:{ right. split; [done|]. unfold WinMain, ShowError. rewrite Ha.
      by destruct (ENABLE_ERROR_DIALOGS b). }
  destruct (usage_error args) eqn:Hu.
  { right. split; [intros ? ? [= <-]; congruence|].
    by rewrite (WinMain_usage b h args). }
  rewrite (WinMain_launch b h args) by done.
  destruct (launch_cases b h args Hok) as [(dir & Hl & ->) | (Hno & Hab)].
  { by apply Hok. }
  - left. by exists args, dir.
  - right. split; [intros ? ? [= <-] _; apply Hno|]. by apply (aborts_returned b).
Qed.

(** ** The example hosts are well-formed *)

Lemma example_host_ok (params : list wstr) :
  Forall wstr_ok params -> host_ok (example_host params).
Proof.
  intros Hp. split; [|split; [|split]].
  - intros args [= <-].
    repeat (apply Forall_cons; split; [apply (bool_decide_unpack _); by vm_compute|]).
    done.
  - intros dir [= <-]. apply (bool_decide_unpack _). by vm_compute.
  - by compute.
  - intros c [= <-]. by compute.
Qed.

Lemma bare_host_ok : host_ok bare_host.
Proof.
  split; [|split; [|split]].
  - intros args [= <-].
    repeat (apply Forall_cons; split; [apply (bool_decide_unpack _); by vm_compute|]).
    done.
  - intros dir [= <-]. apply (bool_decide_unpack _). by vm_compute.
  - by compute.
  - intros c [= <-]. by compute.
Qed.

Lemma empty_cmd_holds : holds empty_cmd [].
Proof. repeat split. by compute. Qed.

(** * The claims *)

(** C7. When the argument vector has fewer than three tokens, or its token 1
    differs from the flag -Script by more than case, the launcher shows the
    static help text in a message box, frees the vector, returns 1 (exit
    code 1) and never calls CreateProcessW. *)
Theorem C7_usage_error_shows_help (b : build) (h : host) (args : list wstr) :
  CommandLineToArgvW h = Some args ->
  (length args < 3)%nat
  \/ map fold_case (arg_at args 1) <> map fold_case (L "-Script") ->
  trace (WinMain b h) = [EvMessageBoxW usage_text (L "PS-Launcher Help"); EvLocalFree]
  /\ returned (WinMain b h) = Some 1
  /\ exit_code (WinMain b h) = Some 1
  /\ spawned (WinMain b h) = false.
Proof.
  intros Ha Hbad. rewrite (WinMain_usage b h args Ha); [done|].
  apply usage_error_iff. rewrite lstrcmpiW_0_iff. exact Hbad.
Qed.

Lemma C7_witness :
  trace (WinMain (default_build X64) bare_host)
  = [EvMessageBoxW usage_text (L "PS-Launcher Help"); EvLocalFree]
  /\ returned (WinMain (default_build X64) bare_host) = Some 1
  /\ exit_code (WinMain (default_build X64) bare_host) = Some 1
  /\ spawned (WinMain (default_build X64) bare_host) = false.
Proof.
  apply (C7_usage_error_shows_help (default_build X64) bare_host [L "ps-launcher.exe"]).
  - reflexivity.
  - left. simpl. lia.
Defined.

Lemma arg_at_drop (args : list wstr) (i : nat) :
  (3 <= i < length args)%nat -> arg_at args i ∈ drop 3 args.
Proof.
  intros Hi. unfold arg_at. rewrite nth_lookup.
  destruct (lookup_lt_is_Some_2 args i) as [a Ha]; [lia|]. rewrite Ha. simpl.
  apply list_elem_of_lookup. exists (i - 3)%nat. rewrite lookup_drop.
  rewrite <- Ha. f_equal. lia.
Qed.

Lemma existsb_has_semicolon (params : list wstr) (p : wstr) :
  p ∈ params -> SEMICOLON ∈ p -> existsb has_semicolon params = true.
Proof.
  intros Hp Hs. apply existsb_exists. exists p.
  split; [by apply list_elem_of_In | by apply has_semicolon_In].
Qed.

(** C1. When some forwarded parameter (a token at index 3 or later) holds a
    semicolon, the run returns 1 (exit code 1) and CreateProcessW is never
    called, whatever the other tokens and the host are; the loop body gives
    up on the raw text of such a parameter before it appends anything,
    in every state of the buffer. *)
Theorem C1_semicolon_aborts_run (b : build) (h : host) (args : list wstr)
    (i : nat) :
  host_ok h -> CommandLineToArgvW h = Some args ->
  (3 <= i < length args)%nat -> SEMICOLON ∈ arg_at args i ->
  returned (WinMain b h) = Some 1
  /\ exit_code (WinMain b h) = Some 1
  /\ spawned (WinMain b h) = false
  /\ forall st, process_param b (arg_at args i) st = ([EvLocalFree], Return 1).
Proof.
  intros Hok Ha Hi Hsemi.
  assert (Hloop : forall st,
            process_param b (arg_at args i) st = ([EvLocalFree], Return 1)).
  { intros st. rewrite process_param_semicolon by by apply has_semicolon_In.
    rewrite bail_out_eq. by destruct (ENABLE_ERROR_DIALOGS b). }
  destruct (WinMain_cases b h Hok)
    as [(args' & dir & Ha' & _ & Hl & _) | (_ & Hret & Hsp)].
  - exfalso. rewrite Ha in Ha'. injection Ha' as <-.
    destruct Hl as (_ & _ & _ & _ & Hns & _).
    rewrite (existsb_has_semicolon (drop 3 args) (arg_at args i)) in Hns;
      [done | by apply arg_at_drop | done].
  - unfold exit_code. rewrite Hret. done.
Qed.

Lemma C1_witness :
  returned (WinMain (default_build X86) (example_host [L "-Name"; a_semicolon_b]))
  = Some 1
  /\ spawned (WinMain (default_build X86) (example_host [L "-Name"; a_semicolon_b]))
     = false.
Proof.
  destruct (C1_semicolon_aborts_run (default_build X86)
              (example_host [L "-Name"; a_semicolon_b])
              ([L "ps-launcher.exe"; L "-script"; L "C:\test.ps1"]
               ++ [L "-Name"; a_semicolon_b]) 4) as (Hr & _ & Hs & _).
  - apply example_host_ok.
    repeat (apply Forall_cons; split; [apply (bool_decide_unpack _); by vm_compute|]).
    done.
  - reflexivity.
  - simpl. lia.
  - apply has_semicolon_In. reflexivity.
  - split; [exact Hr | exact Hs].
Defined.

Lemma launchable_unique (h : host) (args args' : list wstr) (dir dir' : wstr) :
  CommandLineToArgvW h = Some args -> CommandLineToArgvW h = Some args' ->
  launchable h args dir -> launchable h args' dir' -> args' = args /\ dir' = dir.
Proof. intros Ha Ha' (Hd & _) (Hd' & _). split; congruence. Qed.

Lemma usage_error_false (args : list wstr) :
  (3 <= length args)%nat -> lstrcmpiW (arg_at args 1) (L "-Script") = 0 ->
  usage_error args = false.
Proof.
  intros Hn Hflag. destruct (usage_error args) eqn:E; [|done].
  apply usage_error_iff in E. lia.
Qed.

(** A launchable invocation with accepted arguments is carried through to
    the spawn with the specified command line. *)
Lemma WinMain_launchable (b : build) (h : host) (args : list wstr) (dir : wstr) :
  host_ok h -> CommandLineToArgvW h = Some args ->
  (3 <= length args)%nat -> lstrcmpiW (arg_at args 1) (L "-Script") = 0 ->
  launchable h args dir ->
  WinMain b h
  = (LocalFree;;
     spawn b h (spec_command_line (spec_interpreter_path dir)
                  (arg_at args 2) (drop 3 args))).
Proof.
  intros Hok Ha Hn Hflag Hl.
  destruct (WinMain_cases b h Hok)
    as [(args' & dir' & Ha' & _ & Hl' & ->) | (Hno & _)].
  - destruct (launchable_unique h args args' dir dir') as [-> ->]; done.
  - exfalso. eapply Hno; eauto using usage_error_false.
Qed.

Lemma DWORD_roundtrip (d : Z) : DWORD_ok d -> DWORD_of_int (int_of_DWORD d) = d.
Proof.
  unfold DWORD_ok, DWORD_of_int, int_of_DWORD. intros Hd.
  rewrite (Z.mod_small d) by lia.
  destruct (Z.ltb_spec d (2 ^ 31)).
  - apply Z.mod_small. lia.
  - symmetry. apply (Z.mod_unique _ _ (-1)); lia.
Qed.

(** C3. For a valid invocation (at least three tokens, the flag matches,
    the interpreter path is resolved, both files exist, no forwarded
    parameter has a semicolon, the line fits the buffer) CreateProcessW is
    called exactly once, and its command line is: the interpreter path in
    double quotes, the literal run of interpreter flags, the script path in
    double quotes, then every forwarded parameter, in argument order, each
    after one space and in its specified form [spec_param]. *)
Theorem C3_command_line_shape (b : build) (h : host) (args : list wstr)
    (dir : wstr) :
  host_ok h -> CommandLineToArgvW h = Some args ->
  (3 <= length args)%nat -> lstrcmpiW (arg_at args 1) (L "-Script") = 0 ->
  launchable h args dir ->
  spawn_calls (trace (WinMain b h))
  = [ [DQUOTE] ++ spec_interpreter_path dir ++ [DQUOTE]
      ++ L " -NonInteractive -NoProfile -ExecutionPolicy Bypass -File "
      ++ [DQUOTE] ++ arg_at args 2 ++ [DQUOTE]
      ++ concat (map (fun p => SPACE :: spec_param p) (drop 3 args)) ].
Proof.
  intros Hok Ha Hn Hflag Hl.
  rewrite (WinMain_launchable b h args dir) by done.
  match goal with |- _ = [?l] =>
    replace l with (spec_command_line (spec_interpreter_path dir)
                      (arg_at args 2) (drop 3 args))
  end.
  2:{ unfold spec_command_line, spec_prefix, spec_params, interpreter_flags.
      by rewrite <- !app_assoc. }
  unfold spawn, ShowError.
  by destruct (CreateProcessW h _), (WaitForSingleObject h),
    (ENABLE_ERROR_DIALOGS b).
Qed.

(** The conditions of [launchable], checked on a concrete host. *)
Ltac check_launchable :=
  repeat split;
  first [ reflexivity | discriminate
        | apply (bool_decide_unpack _); by vm_compute ].

Ltac check_params :=
  repeat (apply Forall_cons; split; [apply (bool_decide_unpack _); by vm_compute|]);
  apply Forall_nil_2.

Lemma C3_witness :
  spawn_calls (trace (WinMain (default_build X64)
                        (example_host [L "-Name"; john_doe; say_hi])))
  = [ [DQUOTE] ++ L "C:\Windows\System32\WindowsPowerShell\v1.0\powershell.exe"
      ++ [DQUOTE]
      ++ L " -NonInteractive -NoProfile -ExecutionPolicy Bypass -File "
      ++ [DQUOTE] ++ L "C:\test.ps1" ++ [DQUOTE]
      ++ L " " ++ [DQUOTE] ++ L "-Name" ++ [DQUOTE]
      ++ L " " ++ [DQUOTE] ++ L "John Doe" ++ [DQUOTE]
      ++ L " " ++ [DQUOTE] ++ L "say " ++ [BACKSLASH; DQUOTE]
      ++ L "hi" ++ [BACKSLASH; DQUOTE]
      ++ L " now" ++ [DQUOTE] ].
Proof.
  etransitivity.
  - apply (C3_command_line_shape (default_build X64)
             (example_host [L "-Name"; john_doe; say_hi])
             ([L "ps-launcher.exe"; L "-script"; L "C:\test.ps1"]
              ++ [L "-Name"; john_doe; say_hi])
             (L "C:\Windows\System32")).
    + apply example_host_ok. check_params.
    + reflexivity.
    + simpl. lia.
    + reflexivity.
    + check_launchable.
  - vm_compute. reflexivity.
Defined.

(** C6. For an invocation that reaches CreateProcessW: when the call fails,
    the exit code is the code GetLastError reports (no handle is closed,
    none exists); when it succeeds and the wait comes back, the exit code is
    what GetExitCodeProcess stored (the child's code, 0 included; the
    preset 0 if that call fails), and the process handle and then the
    thread handle are closed after the code was read; when the wait never
    comes back, neither does the launcher. *)
Theorem C6_exit_code_propagation (b : build) (h : host) (args : list wstr)
    (dir : wstr) :
  host_ok h -> CommandLineToArgvW h = Some args ->
  (3 <= length args)%nat -> lstrcmpiW (arg_at args 1) (L "-Script") = 0 ->
  launchable h args dir ->
  let cmdline := spec_command_line (spec_interpreter_path dir)
                   (arg_at args 2) (drop 3 args) in
  if CreateProcessW h cmdline then
    if WaitForSingleObject h then
      exit_code (WinMain b h) = Some (default 0 (GetExitCodeProcess h))
      /\ trace (WinMain b h)
         = [EvLocalFree; EvCreateProcessW cmdline true; EvWaitForSingleObject;
            EvGetExitCodeProcess; EvCloseHandle hProcess; EvCloseHandle hThread]
    else snd (WinMain b h) = Blocked
  else
    exit_code (WinMain b h) = Some (GetLastError h)
    /\ Forall (fun e => forall hnd, e <> EvCloseHandle hnd) (trace (WinMain b h)).
Proof.
  intros Hok Ha Hn Hflag Hl cmdline.
  rewrite (WinMain_launchable b h args dir) by done. fold cmdline.
  destruct Hok as (_ & _ & Herr & Hcode).
  unfold spawn, ShowError, exit_code.
  destruct (CreateProcessW h cmdline); simpl negb; cbv iota.
  - destruct (WaitForSingleObject h); [|done].
    split; [|done]. simpl. f_equal. apply DWORD_roundtrip.
    destruct (GetExitCodeProcess h) as [c|]; simpl; [by apply Hcode|by compute].
  - destruct (ENABLE_ERROR_DIALOGS b); simpl.
    + split; [f_equal; by apply DWORD_roundtrip|]. repeat constructor; done.
    + split; [f_equal; by apply DWORD_roundtrip|]. repeat constructor; done.
Qed.

Lemma C6_witness :
  exit_code (WinMain (default_build X64) (example_host [])) = Some 3.
Proof.
  apply (C6_exit_code_propagation (default_build X64) (example_host [])
           ([L "ps-launcher.exe"; L "-script"; L "C:\test.ps1"] ++ [])
           (L "C:\Windows\System32")).
  - apply example_host_ok. check_params.
  - reflexivity.
  - simpl. lia.
  - reflexivity.
  - check_launchable.
Defined.

(** The loop body, all outcomes at once. *)
Lemma process_param_outcome (b : build) (arg : wstr) (st : buffer * Z) (s : wstr) :
  holds st s -> wstr_ok arg ->
  match process_param b arg st with
  | (tr, Continue st') =>
      tr = [] /\ (SEMICOLON ∉ arg) /\ holds st' (s ++ SPACE :: spec_param arg)
  | (tr, Return code) =>
      code = 1 /\ (SEMICOLON ∈ arg \/ ~ fits (s ++ SPACE :: spec_param arg))
  | (_, Undefined) | (_, Blocked) => False
  end.
Proof.
  intros H0 [_ Harg].
  destruct (has_semicolon arg) eqn:Hsemi.
  { rewrite process_param_semicolon, bail_out_eq by done.
    split; [done|]. left. by apply has_semicolon_In. }
  assert (Hno : SEMICOLON ∉ arg).
  { rewrite <- has_semicolon_In. congruence. }
  destruct (process_param_cases b arg st s H0 Harg Hsemi)
    as [(_ & st' & -> & H') | (Hnf & shown & ->)].
  - done.
  - rewrite bail_out_eq. split; [done|]. by right.
Qed.

(** C2. Every append step is capacity-checked.  In a buffer state [st]
    holding the terminated text [s]: AppendStr never stores outside the
    array; it succeeds exactly when [s ++ src] and a terminator fit in
    CMD_BUFFER_SIZE = 1024 cells, and then the buffer holds the whole of
    [s ++ src], terminated; otherwise it reports failure and leaves buffer
    and length as they were.  The same holds for the in-place quote and for
    AppendEscaped.  For the run: WinMain never accesses an array out of
    bounds, and either the whole command line fits or the run returns 1
    without calling CreateProcessW. *)
Theorem C2_appends_are_capacity_checked (b : build) (h : host)
    (args : list wstr) (dir : wstr) (st : buffer * Z) (s src : wstr) :
  host_ok h -> CommandLineToArgvW h = Some args -> SystemDirectory h = Some dir ->
  holds st s -> lstrlenW src <= INT_MAX ->
  match AppendStr (arch b) (fst st) CMD_BUFFER_SIZE src (snd st) with
  | Some (true, cmd', pos') => fits (s ++ src) /\ holds (cmd', pos') (s ++ src)
  | Some (false, cmd', pos') => ~ fits (s ++ src) /\ (cmd', pos') = st
  | None => False
  end
  /\ match append_quote b st with
     | (_, Continue st') => fits (s ++ [DQUOTE]) /\ holds st' (s ++ [DQUOTE])
     | (_, Return code) => code = 1 /\ ~ fits (s ++ [DQUOTE])
     | (_, Undefined) | (_, Blocked) => False
     end
  /\ match AppendEscaped (arch b) (fst st) CMD_BUFFER_SIZE src (snd st) with
     | Some (true, cmd', pos') =>
         fits (s ++ spec_escape src) /\ holds (cmd', pos') (s ++ spec_escape src)
     | Some (false, _, _) => ~ fits (s ++ spec_escape src)
     | None => False
     end
  /\ snd (WinMain b h) <> Undefined
  /\ (fits (spec_command_line (spec_interpreter_path dir) (arg_at args 2)
              (drop 3 args))
      \/ (returned (WinMain b h) = Some 1 /\ exit_code (WinMain b h) = Some 1
          /\ spawned (WinMain b h) = false)).
Proof.
  intros Hok Ha Hd H0 Hsrc. repeat apply conj.
  - destruct (decide (fits (s ++ src))) as [Hf|Hf].
    + destruct (AppendStr_fits (arch b) st s src (proj1 H0) Hsrc Hf)
        as ([cmd' pos'] & -> & H'). done.
    + rewrite (AppendStr_overflow (arch b) st s src (proj1 H0) Hsrc Hf).
      by destruct st.
  - destruct (append_quote_cases b st s (proj1 H0))
      as [(Hf & st' & -> & H') | (Hf & ->)]; [done|].
    rewrite overflow_error_bails_out, bail_out_eq. done.
  - destruct (AppendEscaped_cases (arch b) src st s H0 Hsrc)
      as [(Hf & [cmd' pos'] & -> & H') | (Hf & [cmd' pos'] & ->)]; done.
  - destruct (WinMain_cases b h Hok)
      as [(args' & dir' & _ & _ & _ & ->) | (_ & Hret & _)].
    + unfold spawn, ShowError.
      by destruct (CreateProcessW h _), (WaitForSingleObject h),
        (ENABLE_ERROR_DIALOGS b).
    + unfold returned in Hret. by destruct (snd (WinMain b h)).
  - destruct (WinMain_cases b h Hok)
      as [(args' & dir' & Ha' & _ & Hl & _) | (_ & Hret & Hsp)].
    + left. destruct Hl as (Hd' & _ & _ & _ & _ & Hfit).
      by replace args with args' by congruence; replace dir with dir' by congruence.
    + right. unfold exit_code. by rewrite Hret.
Qed.

Lemma C2_witness :
  returned (WinMain (default_build X86) (example_host [replicate 1000 65]))
  = Some 1
  /\ spawned (WinMain (default_build X86) (example_host [replicate 1000 65]))
     = false
  /\ snd (WinMain (default_build X86) (example_host [replicate 1000 65]))
     <> Undefined.
Proof.
  destruct (C2_appends_are_capacity_checked (default_build X86)
              (example_host [replicate 1000 65])
              ([L "ps-launcher.exe"; L "-script"; L "C:\test.ps1"]
               ++ [replicate 1000 65])
              (L "C:\Windows\System32") empty_cmd [] (L "abc"))
    as (_ & _ & _ & Hdef & [Hfit | (Hret & _ & Hsp)]).
  - apply example_host_ok. check_params.
  - reflexivity.
  - reflexivity.
  - apply empty_cmd_holds.
  - vm_compute. discriminate.
  - exfalso. revert Hfit. vm_compute. intros H. apply H. reflexivity.
  - split; [exact Hret|]. split; [exact Hsp | exact Hdef].
Defined.

(** C8. The interpreter path in psPath is the system directory, then a
    backslash unless the directory already ends with one, then the fixed
    relative path; and the run returns 1 without calling CreateProcessW when
    the directory query fails (or yields nothing), when the directory with
    its separator or the whole path would not fit in MAX_PATH characters
    with the terminator, when the resulting path names no file, or when the
    script path names no file. *)
Theorem C8_interpreter_path (b : build) (h : host) (args : list wstr) :
  host_ok h -> CommandLineToArgvW h = Some args ->
  (forall dir, SystemDirectory h = Some dir -> resolvable dir ->
     exists psPath,
       path_construction b h = mret psPath
       /\ buffer_cstr psPath
          = Some (dir
                  ++ (if decide (last dir = Some BACKSLASH) then [] else [BACKSLASH])
                  ++ L "WindowsPowerShell\v1.0\powershell.exe"))
  /\ (SystemDirectory h = None
      \/ (exists dir, SystemDirectory h = Some dir /\
            (dir = []
             \/ ~ path_fits (dir ++ separator dir)
             \/ ~ path_fits (dir ++ separator dir ++ psRelative)
             \/ GetFileAttributesW h (spec_interpreter_path dir) = false))
      \/ GetFileAttributesW h (arg_at args 2) = false ->
      returned (WinMain b h) = Some 1
      /\ exit_code (WinMain b h) = Some 1
      /\ spawned (WinMain b h) = false).
Proof.
  intros Hok Ha. split.
  - intros dir Hd Hres.
    destruct (path_construction_cases b h (proj1 (proj2 Hok)))
      as [(dir' & Hd' & _ & psPath & E & Hc) | ([Hn | (dir' & Hd' & Hnr)] & _)].
    + replace dir with dir' by congruence. by exists psPath.
    + congruence.
    + exfalso. apply Hnr. by replace dir' with dir by congruence.
  - intros Hbad.
    destruct (WinMain_cases b h Hok)
      as [(args' & dir' & Ha' & _ & Hl & _) | (_ & Hret & Hsp)].
    2:{ unfold exit_code. by rewrite Hret. }
    exfalso. replace args' with args in * by congruence.
    destruct Hl as (Hd & [Hne Hfit] & Hx1 & Hx2 & _).
    destruct Hbad as [Hn | [(dir & Hd' & Hdir) | Hx]]; [congruence | | congruence].
    replace dir' with dir in * by congruence.
    destruct Hdir as [-> | [Hf | [Hf | Hx]]]; [done | | done | congruence].
    apply Hf. unfold spec_interpreter_path, path_fits, lstrlenW in *.
    rewrite !length_app in *. lia.
Qed.

Lemma C8_witness :
  exists psPath,
    path_construction (default_build X64) (example_host []) = mret psPath
    /\ buffer_cstr psPath
       = Some (L "C:\Windows\System32\WindowsPowerShell\v1.0\powershell.exe").
Proof.
  destruct (C8_interpreter_path (default_build X64) (example_host [])
              ([L "ps-launcher.exe"; L "-script"; L "C:\test.ps1"] ++ []))
    as [Hbuilt _].
  - apply example_host_ok. check_params.
  - reflexivity.
  - destruct (Hbuilt (L "C:\Windows\System32")) as (psPath & E & Hc).
    + reflexivity.
    + split; [discriminate|]. vm_compute. discriminate.
    + exists psPath. split; [exact E | exact Hc].
Defined.

(** C9, as the claim states it, fails: started without arguments, the
    default build returns 1 without a child and shows a message box. *)
Lemma C9_counterexample :
  ENABLE_ERROR_DIALOGS (default_build X64) = false
  /\ returned (WinMain (default_build X64) bare_host) = Some 1
  /\ spawned (WinMain (default_build X64) bare_host) = false
  /\ displayed (WinMain (default_build X64) bare_host) = true.
Proof. repeat split. Qed.

(** C9, amended. In a build without ENABLE_ERROR_DIALOGS the launcher shows
    something exactly when the arguments are rejected (fewer than three
    tokens, or a token 1 other than the flag): the help text, through the
    unconditional MessageBoxW call.  Every other failure, and every run
    that reaches the child, shows nothing. *)
Theorem C9_only_usage_help_is_shown (b : build) (h : host) :
  host_ok h -> ENABLE_ERROR_DIALOGS b = false ->
  displayed (WinMain b h)
  = match CommandLineToArgvW h with
    | Some args => usage_error args
    | None => false
    end
  /\ Forall (fun e => is_display e = true ->
                      e = EvMessageBoxW usage_text (L "PS-Launcher Help"))
       (trace (WinMain b h)).
Proof.
  intros Hok Hb.
  destruct (CommandLineToArgvW h) as [args|] eqn:Ha.
  2:{ unfold WinMain, ShowError. rewrite Ha, Hb. split; [done|constructor]. }
  destruct (usage_error args) eqn:Hu.
  { rewrite (WinMain_usage b h args) by done. split; [done|].
    repeat constructor; done. }
  rewrite (WinMain_launch b h args) by done.
  destruct (launch_cases b h args Hok) as [(dir & _ & ->) | (_ & Hab)].
  { by apply Hok. }
  - unfold spawn, ShowError. rewrite Hb.
    destruct (CreateProcessW h _), (WaitForSingleObject h);
      (split; [done | repeat constructor; done]).
  - unfold displayed. rewrite (aborts_silent b _ Hb Hab).
    split; [done | repeat constructor; done].
Qed.

Lemma C9_witness :
  displayed (WinMain (default_build X64) (example_host [a_semicolon_b])) = false.
Proof.
  destruct (C9_only_usage_help_is_shown (default_build X64)
              (example_host [a_semicolon_b])) as [H _].
  - apply example_host_ok. check_params.
  - reflexivity.
  - rewrite H. reflexivity.
Defined.

(** C4. A forwarded parameter of length at least 2 that begins and ends
    with a double quote is recognised as already quoted, and whenever the
    loop body appends it, the buffer then holds the earlier text, one space
    and the parameter itself, character for character.  The body fails only
    for a semicolon in the parameter or for want of room, returning 1. *)
Theorem C4_pre_quoted_appended_verbatim (b : build) (arg : wstr)
    (st : buffer * Z) (s : wstr) :
  holds st s -> wstr_ok arg ->
  2 <= lstrlenW arg -> head arg = Some DQUOTE -> last arg = Some DQUOTE ->
  alreadyQuoted arg = true
  /\ match process_param b arg st with
     | (tr, Continue st') => tr = [] /\ holds st' (s ++ [SPACE] ++ arg)
     | (tr, Return code) =>
         code = 1 /\ (SEMICOLON ∈ arg \/ ~ fits (s ++ [SPACE] ++ arg))
     | (_, Undefined) | (_, Blocked) => False
     end.
Proof.
  intros H0 Hok Hlen Hhead Hlast.
  assert (Hpre : pre_quoted arg) by done.
  split; [by apply alreadyQuoted_iff|].
  pose proof (process_param_outcome b arg st s H0 Hok) as H.
  unfold spec_param in H. rewrite decide_True in H by done.
  destruct (process_param b arg st) as [tr [st'|code| |]]; try done.
  by destruct H as (? & _ & ?).
Qed.

Lemma C4_witness :
  exists st',
    process_param (default_build X64) john_doe empty_cmd = ([], Continue st')
    /\ holds st' ([] ++ [SPACE] ++ john_doe).
Proof.
  destruct (C4_pre_quoted_appended_verbatim (default_build X64) john_doe
              empty_cmd []) as [_ H].
  - apply empty_cmd_holds.
  - apply (bool_decide_unpack _). by vm_compute.
  - vm_compute. discriminate.
  - reflexivity.
  - reflexivity.
  - destruct (process_param (default_build X64) john_doe empty_cmd)
      as [tr [st'|code| |]] eqn:E.
    + exists st'. destruct H as [-> H]. split; [reflexivity | exact H].
    + exfalso. vm_compute in E. discriminate E.
    + exact (False_ind _ H).
    + exact (False_ind _ H).
Defined.

(** C5. A forwarded parameter that is not pre-quoted is appended, after one
    space, between two added double quotes, with every double quote inside
    it replaced by a backslash and a double quote ([spec_escape]); a
    parameter without double quotes stands unchanged between the added
    quotes.  The body fails only for a semicolon in the parameter or for
    want of room, returning 1. *)
Theorem C5_unquoted_escaped_and_wrapped (b : build) (arg : wstr)
    (st : buffer * Z) (s : wstr) :
  holds st s -> wstr_ok arg -> ~ pre_quoted arg ->
  alreadyQuoted arg = false
  /\ match process_param b arg st with
     | (tr, Continue st') =>
         tr = []
         /\ holds st' (s ++ [SPACE] ++ [DQUOTE] ++ spec_escape arg ++ [DQUOTE])
     | (tr, Return code) =>
         code = 1
         /\ (SEMICOLON ∈ arg
             \/ ~ fits (s ++ [SPACE] ++ [DQUOTE] ++ spec_escape arg ++ [DQUOTE]))
     | (_, Undefined) | (_, Blocked) => False
     end
  /\ spec_escape arg
     = flat_map (fun c => if bool_decide (c = DQUOTE) then [BACKSLASH; DQUOTE] else [c]) arg
  /\ (DQUOTE ∉ arg -> spec_escape arg = arg).
Proof.
  intros H0 Hok Hpre.
  split; [|split; [|split; [done | apply spec_escape_no_quote]]].
  - rewrite alreadyQuoted_spec. by apply bool_decide_eq_false.
  - pose proof (process_param_outcome b arg st s H0 Hok) as H.
    unfold spec_param in H. rewrite decide_False in H by done.
    destruct (process_param b arg st) as [tr [st'|code| |]]; try done.
    by destruct H as (? & _ & ?).
Qed.

Lemma C5_witness :
  exists st',
    process_param (default_build X64) say_hi empty_cmd = ([], Continue st')
    /\ holds st' (L " " ++ [DQUOTE] ++ L "say " ++ [BACKSLASH; DQUOTE]
                  ++ L "hi" ++ [BACKSLASH; DQUOTE] ++ L " now" ++ [DQUOTE]).
Proof.
  destruct (C5_unquoted_escaped_and_wrapped (default_build X64) say_hi
              empty_cmd []) as (_ & H & _).
  - apply empty_cmd_holds.
  - apply (bool_decide_unpack _). by vm_compute.
  - apply (bool_decide_unpack _). by vm_compute.
  - destruct (process_param (default_build X64) say_hi empty_cmd)
      as [tr [st'|code| |]] eqn:E.
    + exists st'. destruct H as [-> H]. split; [reflexivity | exact H].
    + exfalso. vm_compute in E. discriminate E.
    + exact (False_ind _ H).
    + exact (False_ind _ H).
Defined.

(** The loop, all outcomes at once: it goes on exactly when no parameter
    holds a semicolon and the whole text fits, and otherwise returns 1. *)
Lemma parameter_processing_outcome (b : build) (params : list wstr)
    (st : buffer * Z) (s : wstr) :
  holds st s -> Forall wstr_ok params ->
  match parameter_processing b params st with
  | (tr, Continue st') =>
      tr = [] /\ existsb has_semicolon params = false
      /\ holds st' (s ++ spec_params params)
  | (tr, Return code) =>
      code = 1 /\ (existsb has_semicolon params = true
                   \/ ~ fits (s ++ spec_params params))
  | (_, Undefined) | (_, Blocked) => False
  end.
Proof.
  intros H0 Hok.
  destruct (parameter_processing_cases b params st s H0 Hok)
    as [(Hns & _ & st' & -> & H') | (Hbad & shown & ->)].
  - done.
  - rewrite bail_out_eq. by split.
Qed.

Lemma spec_params_app (ps1 ps2 : list wstr) :
  spec_params (ps1 ++ ps2) = spec_params ps1 ++ spec_params ps2.
Proof. unfold spec_params. by rewrite map_app, concat_app. Qed.

(** C10. The empty parameter has no semicolon and is not taken for
    pre-quoted (its length is below 2).  Whenever there is room the loop
    body appends a space and two double quotes for it, and the loop goes on
    with the remaining parameters from that state; it fails, returning 1,
    only when these three characters do not fit.  For the loop as a whole,
    with an empty parameter anywhere among the forwarded ones: the run is
    rejected (1 is returned) only for a semicolon in another parameter or
    for a text that does not fit, and otherwise the loop ends with the
    buffer holding the parameters before it, a space and two double quotes,
    and the remaining parameters, each in its form. *)
Theorem C10_empty_parameter (b : build) (rest : list wstr) (st : buffer * Z)
    (s : wstr) :
  holds st s ->
  has_semicolon [] = false /\ alreadyQuoted [] = false
  /\ match process_param b [] st with
     | (tr, Continue st') =>
         tr = [] /\ holds st' (s ++ [SPACE; DQUOTE; DQUOTE])
         /\ parameter_processing b ([] :: rest) st
            = parameter_processing b rest st'
     | (tr, Return code) => code = 1 /\ ~ fits (s ++ [SPACE; DQUOTE; DQUOTE])
     | (_, Undefined) | (_, Blocked) => False
     end
  /\ forall before : list wstr, Forall wstr_ok (before ++ rest) ->
     match parameter_processing b (before ++ [] :: rest) st with
     | (tr, Continue st') =>
         tr = [] /\ existsb has_semicolon (before ++ rest) = false
         /\ holds st' (s ++ spec_params before ++ [SPACE; DQUOTE; DQUOTE]
                         ++ spec_params rest)
     | (tr, Return code) =>
         code = 1
         /\ (existsb has_semicolon (before ++ rest) = true
             \/ ~ fits (s ++ spec_params before ++ [SPACE; DQUOTE; DQUOTE]
                          ++ spec_params rest))
     | (_, Undefined) | (_, Blocked) => False
     end.
Proof.
  intros H0. split; [done|]. split; [done|]. split.
  - pose proof (process_param_outcome b [] st s H0 wstr_ok_nil) as H.
    change (spec_param []) with [DQUOTE; DQUOTE] in H.
    simpl parameter_processing.
    destruct (process_param b [] st) as [tr [st'|code| |]]; try done.
    + destruct H as (-> & _ & H). split; [done|]. split; [done|].
      apply (M_ret_bind st').
    + destruct H as (-> & [Hs | Hf]); [|done].
      by apply elem_of_nil in Hs.
  - intros before Hok.
    assert (Hall : Forall wstr_ok (before ++ [] :: rest)).
    { apply Forall_app in Hok as [Hb Hr]. apply Forall_app. split; [done|].
      apply Forall_cons. split; [apply wstr_ok_nil | done]. }
    pose proof (parameter_processing_outcome b (before ++ [] :: rest) st s H0 Hall)
      as H.
    rewrite spec_params_app, spec_params_cons in H.
    change (spec_param []) with [DQUOTE; DQUOTE] in H.
    rewrite existsb_app in H. simpl existsb in H.
    rewrite existsb_app. exact H.
Qed.

Lemma C10_witness :
  exists st',
    parameter_processing (default_build X86) [L "-a"; []; L "-Verbose"] empty_cmd
    = ([], Continue st')
    /\ holds st' (spec_params [L "-a"] ++ [SPACE; DQUOTE; DQUOTE]
                    ++ spec_params [L "-Verbose"]).
Proof.
  destruct (C10_empty_parameter (default_build X86) [L "-Verbose"] empty_cmd []
              empty_cmd_holds) as (_ & _ & _ & H).
  specialize (H [L "-a"]).
  change ([L "-a"] ++ [] :: [L "-Verbose"]) with [L "-a"; []; L "-Verbose"] in H.
  destruct (parameter_processing (default_build X86) [L "-a"; []; L "-Verbose"]
              empty_cmd) as [tr [st'|code| |]] eqn:E.
  - exists st'. destruct H as (-> & _ & H).
    + apply (bool_decide_unpack _). by vm_compute.
    + split; [reflexivity | exact H].
  - exfalso. vm_compute in E. discriminate E.
  - exfalso. vm_compute in E. discriminate E.
  - exfalso. vm_compute in E. discriminate E.
Defined.

(** * The scenarios of the specification, evaluated *)

(** Scenario 4: the parameter [a;b] ends the run at once. *)
Example scenario_semicolon :
  WinMain (default_build X64) (example_host [a_semicolon_b])
  = ([EvLocalFree], Return 1).
Proof. vm_compute. reflexivity. Qed.

(** Scenario 5: a script path that names no file. *)
Example scenario_script_not_found :
  WinMain (default_build X64)
    {| CommandLineToArgvW := Some [L "ps-launcher.exe"; L "-Script"; L "C:\gone.ps1"];
       SystemDirectory := Some (L "C:\Windows\System32");
       GetFileAttributesW := fun p => negb (bool_decide (p = L "C:\gone.ps1"));
       stack_garbage := [];
       CreateProcessW := fun _ => true;
       GetLastError := 2;
       WaitForSingleObject := true;
       GetExitCodeProcess := Some 0 |}
  = ([EvLocalFree], Return 1).
Proof. vm_compute. reflexivity. Qed.

(** A first token that is not the flag. *)
Example scenario_wrong_flag :
  returned (WinMain (default_build X86)
              {| CommandLineToArgvW := Some [L "ps-launcher.exe"; L "-File"; L "C:\test.ps1"];
                 SystemDirectory := Some (L "C:\Windows\System32");
                 GetFileAttributesW := fun _ => true;
                 stack_garbage := [];
                 CreateProcessW := fun _ => true;
                 GetLastError := 2;
                 WaitForSingleObject := true;
                 GetExitCodeProcess := Some 0 |})
  = Some 1.
Proof. vm_compute. reflexivity. Qed.

(** The capacity boundary.  On the example host the quoted prefix takes 130
    characters and a plain parameter of [n] characters 3 + [n] more: 890 is
    the longest single parameter that still fits with the terminator. *)
Example boundary_fits :
  spawn_calls (trace (WinMain (default_build X86) (example_host [replicate 890 65])))
  = [spec_command_line (L "C:\Windows\System32\WindowsPowerShell\v1.0\powershell.exe")
       (L "C:\test.ps1") [replicate 890 65]]
  /\ lstrlenW (spec_command_line
                 (L "C:\Windows\System32\WindowsPowerShell\v1.0\powershell.exe")
                 (L "C:\test.ps1") [replicate 890 65]) = 1023.
Proof. split; vm_compute; reflexivity. Qed.

Example boundary_overflows :
  WinMain (default_build X86) (example_host [replicate 891 65])
  = ([EvLocalFree], Return 1).
Proof. vm_compute. reflexivity. Qed.

(** A failing CreateProcessW: the exit code is the last-error code. *)
Example spawn_failure :
  exit_code (WinMain (default_build X64)
               {| CommandLineToArgvW := Some [L "ps-launcher.exe"; L "-Script"; L "C:\test.ps1"];
                  SystemDirectory := Some (L "C:\Windows\System32" ++ [BACKSLASH]);
                  GetFileAttributesW := fun _ => true;
                  stack_garbage := [7; 7; 7];
                  CreateProcessW := fun _ => false;
                  GetLastError := 5;
                  WaitForSingleObject := true;
                  GetExitCodeProcess := None |})
  = Some 5.
Proof. vm_compute. reflexivity. Qed.

(** An exit code above INT_MAX survives the passage through [int]. *)
Example exit_code_access_violation :
  let h := {| CommandLineToArgvW := Some [L "ps-launcher.exe"; L "-Script"; L "C:\test.ps1"];
              SystemDirectory := Some (L "C:\Windows\System32");
              GetFileAttributesW := fun _ => true;
              stack_garbage := [];
              CreateProcessW := fun _ => true;
              GetLastError := 0;
              WaitForSingleObject := true;
              GetExitCodeProcess := Some 3221225477 |} in
  returned (WinMain (default_build X64) h) = Some (-1073741819)
  /\ exit_code (WinMain (default_build X64) h) = Some 3221225477.
Proof. split; vm_compute; reflexivity. Qed.

(** * Further properties of the code *)

(** ** memset *)

Lemma store_out_of_bounds (b : buffer) (n : nat) (c : Z) :
  (length b <= n)%nat -> store b (Z.of_nat n) c = None.
Proof. intros Hn. unfold store. zcases; simpl; try done; lia. Qed.

Lemma memset_loop_spec (c : Z) (count : nat) : forall (dest : list Z) (n : nat),
  (n <= length dest)%nat ->
  memset_loop dest (Z.of_nat n) c count
  = if decide (n + count <= length dest)%nat
    then Some (take n dest ++ replicate count (c mod 256) ++ drop (n + count) dest)
    else None.
Proof.
  induction count as [|count IH]; intros dest n Hn; simpl.
  - rewrite decide_True by lia. by rewrite Nat.add_0_r, take_drop.
  - destruct (decide (n < length dest)%nat) as [Hlt|Hge].
    + rewrite store_in_bounds by done. simpl.
      replace (Z.of_nat n + 1) with (Z.of_nat (S n)) by lia.
      rewrite IH by (rewrite length_insert; lia). rewrite length_insert.
      destruct (decide (S n + count <= length dest)%nat).
      * rewrite decide_True by lia. f_equal.
        rewrite (take_S_r _ _ (c mod 256)) by (apply list_lookup_insert_eq; lia).
        rewrite take_insert_ge, drop_insert_lt by lia.
        rewrite <- app_assoc. simpl. do 4 f_equal. lia.
      * by rewrite decide_False by lia.
    + rewrite store_out_of_bounds by lia. simpl. by rewrite decide_False by lia.
Qed.

Lemma memset_eq (dest : list Z) (c count : Z) :
  memset dest c count
  = if decide (Z.to_nat count <= length dest)%nat
    then Some (replicate (Z.to_nat count) (c mod 256)
               ++ drop (Z.to_nat count) dest)
    else None.
Proof.
  unfold memset.
  pose proof (memset_loop_spec c (Z.to_nat count) dest 0 ltac:(lia)) as H.
  exact H.
Qed.

(** X1. memset stores the low eight bits of [c] in the first [count] bytes
    and leaves every other byte as it was; with [count] zero it changes
    nothing.  It leaves the array exactly when [count] exceeds the array
    size: the function itself checks no bound. *)
Theorem memset_fills (dest : list Z) (c count : Z) :
  memset dest c count
  = if decide (Z.to_nat count <= length dest)%nat
    then Some (replicate (Z.to_nat count) (c mod 256)
               ++ drop (Z.to_nat count) dest)
    else None.
Proof.
  unfold memset.
  exact (memset_loop_spec c (Z.to_nat count) dest 0 ltac:(lia)).
Qed.

(** X2. What ZeroMemory relies on: memset with value 0 (or any multiple of
    256) over the whole array leaves only zero bytes; and filling a second
    time with the same value and count gives what filling once gives. *)
Theorem memset_zero_and_idempotent (dest : list Z) (c : Z) :
  memset dest 0 (Z.of_nat (length dest)) = Some (replicate (length dest) 0)
  /\ memset dest (256 * c) (Z.of_nat (length dest))
     = Some (replicate (length dest) 0)
  /\ forall count,
       (d1 ← memset dest c count; memset d1 c count) = memset dest c count.
Proof.
  split; [|split].
  - rewrite memset_eq, Nat2Z.id, decide_True by lia.
    by rewrite drop_all, app_nil_r.
  - rewrite memset_eq, Nat2Z.id, decide_True by lia.
    rewrite drop_all, app_nil_r. f_equal. f_equal.
    rewrite Z.mul_comm. apply Z.mod_mul. lia.
  - intros count. rewrite (memset_eq dest).
    destruct (decide (Z.to_nat count <= length dest)%nat) as [Hc|Hc]; [|done].
    simpl. rewrite memset_eq.
    rewrite decide_True by (rewrite length_app, length_replicate, length_drop; lia).
    f_equal. f_equal.
    rewrite drop_app_length'; [done|]. by rewrite length_replicate.
Qed.

(** ** NeedsQuoting *)

Lemma NeedsQuoting_scan_iff (s : wstr) :
  NeedsQuoting_scan s = true <-> SPACE ∈ s \/ TAB ∈ s \/ DQUOTE ∈ s.
Proof.
  induction s as [|c s IH]; simpl.
  - split; [discriminate|]. intros [H|[H|H]]; by apply elem_of_nil in H.
  - rewrite !elem_of_cons.
    destruct (Z.eqb_spec c SPACE), (Z.eqb_spec c TAB), (Z.eqb_spec c DQUOTE);
      simpl; try (split; [auto|done]).
    rewrite IH. intuition congruence.
Qed.


(** X3. NeedsQuoting answers true for the null pointer and for the empty
    string, and otherwise exactly when the string holds a space, a
    tabulator or a double quote. *)
Theorem NeedsQuoting_iff (s : wstr) :
  NeedsQuoting None = true
  /\ (NeedsQuoting (Some s) = true
      <-> s = [] \/ SPACE ∈ s \/ TAB ∈ s \/ DQUOTE ∈ s).
Proof.
  split; [done|]. destruct s as [|c s].
  - split; [by left | done].
  - change (NeedsQuoting (Some (c :: s))) with (NeedsQuoting_scan (c :: s)).
    rewrite NeedsQuoting_scan_iff. split; [by right | by intros [?|?]].
Qed.

Lemma head_elem_of (s : wstr) (c : Z) : head s = Some c -> c ∈ s.
Proof. destruct s; [done|]. intros [= ->]. apply elem_of_cons. by left. Qed.

(** X4. The loop of WinMain does not consult NeedsQuoting: a parameter for
    which NeedsQuoting answers false (not empty, no space, tabulator or
    double quote) is wrapped in double quotes like any other, its text
    unchanged; the loop body fails only for a semicolon or want of room. *)
Theorem quoting_ignores_NeedsQuoting (b : build) (arg : wstr)
    (st : buffer * Z) (s : wstr) :
  holds st s -> wstr_ok arg -> NeedsQuoting (Some arg) = false ->
  match process_param b arg st with
  | (tr, Continue st') =>
      tr = [] /\ holds st' (s ++ [SPACE; DQUOTE] ++ arg ++ [DQUOTE])
  | (tr, Return code) =>
      code = 1
      /\ (SEMICOLON ∈ arg \/ ~ fits (s ++ [SPACE; DQUOTE] ++ arg ++ [DQUOTE]))
  | (_, Undefined) | (_, Blocked) => False
  end.
Proof.
  intros H0 Hok Hnq.
  assert (Hno : DQUOTE ∉ arg).
  { intros Hq. destruct arg as [|c arg]; [done|].
    change (NeedsQuoting (Some (c :: arg))) with (NeedsQuoting_scan (c :: arg)) in Hnq.
    rewrite (proj2 (NeedsQuoting_scan_iff (c :: arg))) in Hnq; [done|].
    by right; right. }
  assert (Hpre : ~ pre_quoted arg).
  { intros (_ & Hh & _). by apply Hno, head_elem_of. }
  pose proof (process_param_outcome b arg st s H0 Hok) as H.
  unfold spec_param in H. rewrite decide_False in H by done.
  rewrite (spec_escape_no_quote arg Hno) in H.
  destruct (process_param b arg st) as [tr [st'|code| |]]; try done.
  by destruct H as (? & _ & ?).
Qed.

Lemma quoting_ignores_NeedsQuoting_witness :
  exists st',
    process_param (default_build X64) (L "-Verbose") empty_cmd
    = ([], Continue st')
    /\ holds st' ([SPACE; DQUOTE] ++ L "-Verbose" ++ [DQUOTE]).
Proof.
  pose proof (quoting_ignores_NeedsQuoting (default_build X64) (L "-Verbose")
                empty_cmd []) as H.
  destruct (process_param (default_build X64) (L "-Verbose") empty_cmd)
    as [tr [st'|code| |]] eqn:E.
  - exists st'. destruct H as [-> H].
    + apply empty_cmd_holds.
    + apply (bool_decide_unpack _). by vm_compute.
    + reflexivity.
    + split; [reflexivity | exact H].
  - exfalso. vm_compute in E. discriminate E.
  - exfalso. vm_compute in E. discriminate E.
  - exfalso. vm_compute in E. discriminate E.
Defined.

(** ** AppendStr on any array *)

Lemma AppendStr_formula (t : target) (dest : buffer) (destSize : Z)
    (src : wstr) (curLen : Z) :
  0 <= destSize <= Z.of_nat (length dest) ->
  0 <= curLen <= INT_MAX -> lstrlenW src <= INT_MAX ->
  AppendStr t dest destSize src curLen
  = if decide (curLen + lstrlenW src < destSize)
    then Some (true,
               take (Z.to_nat curLen) dest ++ src
               ++ NUL :: drop (S (Z.to_nat curLen + length src)) dest,
               curLen + lstrlenW src)
    else Some (false, dest, curLen).
Proof.
  unfold INT_MAX, lstrlenW. intros Hsize Hcur Hsrc.
  unfold AppendStr, lstrlenW. rewrite size_t_small by lia.
  destruct (decide (curLen + Z.of_nat (length src) < destSize)) as [Hfit|Hfit].
  2:{ zcases; [done|lia]. }
  zcases; [lia|].
  rewrite <- (Z2Nat.id curLen) at 1 by lia.
  rewrite copy_loop_spec by lia. simpl.
  replace (curLen + Z.of_nat (length src))
    with (Z.of_nat (Z.to_nat curLen + length src)) at 1 by lia.
  rewrite store_in_bounds.
  2:{ rewrite !length_app, length_take, length_drop. lia. }
  simpl. do 3 f_equal.
  rewrite app_assoc.
  replace (Z.to_nat curLen + length src)%nat
    with (length (take (Z.to_nat curLen) dest ++ src) + 0)%nat at 1
    by (rewrite length_app, length_take; lia).
  rewrite insert_app_r, <- app_assoc. do 2 f_equal.
  destruct (drop (Z.to_nat curLen + length src) dest) as [|x rest] eqn:Hd.
  - apply (f_equal length) in Hd. rewrite length_drop in Hd. simpl in Hd. lia.
  - simpl. f_equal.
    change rest with (drop 1 (x :: rest)). rewrite <- Hd, drop_drop.
    f_equal. lia.
Qed.

(** AppendStr for every current length a size_t can hold: besides the two
    outcomes of a sum that does not wrap around, the copy leaves the array
    when the sum wraps around and the reduced sum passes the test. *)
Lemma AppendStr_size_t (t : target) (dest : buffer) (destSize : Z)
    (src : wstr) (curLen : Z) :
  0 <= destSize <= Z.of_nat (length dest) ->
  Z.of_nat (length dest) < 2 ^ (size_bits t - 1) ->
  0 <= curLen < 2 ^ size_bits t -> lstrlenW src <= INT_MAX ->
  AppendStr t dest destSize src curLen
  = if decide (curLen + lstrlenW src < destSize)
    then Some (true,
               take (Z.to_nat curLen) dest ++ src
               ++ NUL :: drop (S (Z.to_nat curLen + length src)) dest,
               curLen + lstrlenW src)
    else if decide (destSize <= size_t t (curLen + lstrlenW src))
    then Some (false, dest, curLen)
    else None.
Proof.
  unfold INT_MAX, lstrlenW. intros Hsize Hdest Hcur Hsrc.
  assert (Hhalf : 2 ^ 31 <= 2 ^ (size_bits t - 1)
                  /\ 2 ^ size_bits t = 2 * 2 ^ (size_bits t - 1)).
  { destruct t; simpl; lia. }
  destruct Hhalf as [Hhalf Hdouble].
  unfold AppendStr, lstrlenW.
  destruct (decide (curLen + Z.of_nat (length src) < destSize)) as [Hfit|Hfit].
  { unfold size_t. rewrite Z.mod_small by lia.
    zcases; [lia|].
    rewrite <- (Z2Nat.id curLen) at 1 by lia.
    rewrite copy_loop_spec by lia. simpl.
    replace (curLen + Z.of_nat (length src))
      with (Z.of_nat (Z.to_nat curLen + length src)) at 1 by lia.
    rewrite store_in_bounds.
    2:{ rewrite !length_app, length_take, length_drop. lia. }
    simpl. do 3 f_equal.
    rewrite app_assoc.
    replace (Z.to_nat curLen + length src)%nat
      with (length (take (Z.to_nat curLen) dest ++ src) + 0)%nat at 1
      by (rewrite length_app, length_take; lia).
    rewrite insert_app_r, <- app_assoc. do 2 f_equal.
    destruct (drop (Z.to_nat curLen + length src) dest) as [|x rest] eqn:Hd.
    - apply (f_equal length) in Hd. rewrite length_drop in Hd. simpl in Hd. lia.
    - simpl. f_equal.
      change rest with (drop 1 (x :: rest)). rewrite <- Hd, drop_drop.
      f_equal. lia. }
  destruct (decide (destSize <= size_t t (curLen + Z.of_nat (length src))))
    as [Hrefuse|Hpass].
  { zcases; [done|lia]. }
  zcases; [lia|].
  assert (Hwrap : 2 ^ size_bits t <= curLen + Z.of_nat (length src)).
  { destruct (Z.lt_ge_cases (curLen + Z.of_nat (length src)) (2 ^ size_bits t))
      as [Hsmall|]; [|done].
    unfold size_t in Hpass. rewrite Z.mod_small in Hpass by lia. lia. }
  destruct src as [|c src]; [simpl in Hwrap; lia|].
  simpl copy_loop.
  rewrite <- (Z2Nat.id curLen) at 1 by lia.
  rewrite store_out_of_bounds by (simpl in *; lia). done.
Qed.

(** X5. AppendStr on an array of WCHARs that fits the address space, with
    a size [destSize] that the array really has, for every current length a
    size_t can hold.  The test of line 64 compares the sum
    [curLen + srcLen], reduced to size_t, with [destSize].  When the sum is
    below [destSize], the call overwrites the cells
    [curLen .. curLen + srcLen] with the text and a terminator, adds
    [srcLen] to the length and leaves every other cell as it was; no cell at
    index [destSize] or beyond is written.  When the reduced sum is not
    below [destSize], the call refuses and changes neither buffer nor
    length.  What remains is a sum that wraps around and passes the test:
    then the index [curLen] at which the copy starts is no index of the
    array.  That needs a current length beyond the array; for a current
    length within the array the sum does not wrap around and no store
    leaves the array. *)
Theorem AppendStr_exact (t : target) (dest : buffer) (destSize : Z)
    (src : wstr) (curLen : Z) :
  0 <= destSize <= Z.of_nat (length dest) ->
  Z.of_nat (length dest) < 2 ^ (size_bits t - 1) ->
  0 <= curLen < 2 ^ size_bits t -> lstrlenW src <= INT_MAX ->
  match AppendStr t dest destSize src curLen with
  | Some (true, dest', curLen') =>
      curLen + lstrlenW src < destSize
      /\ curLen' = curLen + lstrlenW src
      /\ dest' = take (Z.to_nat curLen) dest ++ src
                 ++ NUL :: drop (S (Z.to_nat curLen')) dest
      /\ drop (Z.to_nat destSize) dest' = drop (Z.to_nat destSize) dest
  | Some (false, dest', curLen') =>
      destSize <= size_t t (curLen + lstrlenW src)
      /\ dest' = dest /\ curLen' = curLen
  | None =>
      size_t t (curLen + lstrlenW src) < destSize
      /\ 2 ^ size_bits t <= curLen + lstrlenW src
      /\ Z.of_nat (length dest) < curLen
  end
  /\ (curLen <= Z.of_nat (length dest) ->
      AppendStr t dest destSize src curLen <> None
      /\ size_t t (curLen + lstrlenW src) = curLen + lstrlenW src).
Proof.
  intros Hsize Hdest Hcur Hsrc.
  assert (Hhalf : 2 ^ 31 <= 2 ^ (size_bits t - 1)
                  /\ 2 ^ size_bits t = 2 * 2 ^ (size_bits t - 1)).
  { destruct t; simpl; lia. }
  destruct Hhalf as [Hhalf Hdouble].
  assert (Hwrap : ~ curLen + lstrlenW src < destSize ->
                  ~ destSize <= size_t t (curLen + lstrlenW src) ->
                  2 ^ size_bits t <= curLen + lstrlenW src).
  { intros Hfit Hpass.
    destruct (Z.lt_ge_cases (curLen + lstrlenW src) (2 ^ size_bits t))
      as [Hsmall|]; [|done].
    unfold size_t in Hpass. unfold lstrlenW in *.
    rewrite Z.mod_small in Hpass by lia. lia. }
  rewrite AppendStr_size_t by done.
  destruct (decide (curLen + lstrlenW src < destSize)) as [Hfit|Hfit].
  - split.
    2:{ intros _. split; [done|]. unfold size_t, lstrlenW in *.
        apply Z.mod_small. lia. }
    unfold lstrlenW in *.
    replace (Z.to_nat (curLen + Z.of_nat (length src)))
      with (Z.to_nat curLen + length src)%nat by lia.
    split; [done|]. split; [done|]. split; [done|].
    rewrite (app_assoc _ src), drop_app_ge by (rewrite length_app, length_take; lia).
    rewrite length_app, length_take.
    replace (Z.to_nat destSize - (Z.to_nat curLen `min` length dest + length src))%nat
      with (S (Z.to_nat destSize - S (Z.to_nat curLen + length src)))%nat by lia.
    simpl. rewrite drop_drop. f_equal. lia.
  - destruct (decide (destSize <= size_t t (curLen + lstrlenW src)))
      as [Hrefuse|Hpass].
    + split; [done|]. intros Hin. split; [done|].
      unfold size_t, lstrlenW, INT_MAX in *. apply Z.mod_small. lia.
    + specialize (Hwrap Hfit Hpass). unfold lstrlenW, INT_MAX in *.
      split; [split; [lia|split; [done|lia]]|].
      intros Hin. lia.
Qed.

Lemma AppendStr_exact_witness :
  AppendStr X86 (replicate 8 7) 6 (L "ab") 1
  = Some (true, [7; 97; 98; 0; 7; 7; 7; 7], 3).
Proof.
  destruct (AppendStr_exact X86 (replicate 8 7) 6 (L "ab") 1) as [H _].
  - simpl. lia.
  - simpl. lia.
  - simpl. lia.
  - vm_compute. discriminate.
  - destruct (AppendStr X86 (replicate 8 7) 6 (L "ab") 1)
      as [[[[|] dest'] curLen']|] eqn:E.
    + destruct H as (_ & -> & -> & _). reflexivity.
    + exfalso. vm_compute in E. discriminate E.
    + exfalso. vm_compute in E. discriminate E.
Defined.

(** The current length 2^32 - 1 on a 32-bit target: the sum is reduced to
    1, the test of line 64 passes, and the copy starts outside the array. *)
Example AppendStr_wraps_around :
  AppendStr X86 (replicate 8 7) 6 (L "ab") (2 ^ 32 - 1) = None.
Proof. vm_compute. reflexivity. Qed.

Lemma AppendStr_seq (t : target) (dest : buffer) (destSize : Z)
    (s1 s2 : wstr) (curLen : Z) :
  0 <= destSize <= Z.of_nat (length dest) -> destSize <= INT_MAX ->
  0 <= curLen -> curLen + lstrlenW (s1 ++ s2) < destSize ->
  AppendStr t dest destSize (s1 ++ s2) curLen
  = ('(ok, dest1, curLen1) ← AppendStr t dest destSize s1 curLen;
     AppendStr t dest1 destSize s2 curLen1).
Proof.
  unfold lstrlenW. rewrite length_app. intros Hsize Hmax Hcur Hfit.
  assert (Hlt : (Z.to_nat curLen + length s1 + length s2 < length dest)%nat) by lia.
  rewrite !AppendStr_formula by (unfold lstrlenW, INT_MAX in *; rewrite ?length_app; lia).
  unfold lstrlenW. rewrite length_app.
  rewrite decide_True by lia. rewrite decide_True by lia. simpl.
  rewrite AppendStr_formula.
  2:{ rewrite !length_app, length_take, length_cons, length_drop. lia. }
  2:{ unfold INT_MAX in *. lia. }
  2:{ unfold lstrlenW, INT_MAX in *. lia. }
  unfold lstrlenW. rewrite decide_True by lia.
  f_equal. f_equal; [|lia]. f_equal.
  replace (Z.to_nat (curLen + Z.of_nat (length s1)))
    with (length (take (Z.to_nat curLen) dest ++ s1))
    by (rewrite length_app, length_take; lia).
  rewrite !(app_assoc (take _ dest) s1).
  rewrite take_app_length. rewrite <- !app_assoc. do 3 f_equal.
  replace (S (length (take (Z.to_nat curLen) dest ++ s1) + length s2))
    with (length (take (Z.to_nat curLen) dest ++ s1) + S (length s2))%nat by lia.
  rewrite (app_assoc (take _ dest) s1), drop_app_add. simpl.
  rewrite drop_drop. do 2 f_equal. lia.
Qed.

(** X6. For an array of at most INT_MAX cells and a current length
    between 0 and INT_MAX.  Whenever the concatenation of two texts fits,
    appending them one after the other succeeds and gives what appending the
    concatenation gives: the old cells before [curLen], both texts, the
    terminator, and the length grown by both.  When the concatenation does
    not fit, the single call refuses and changes nothing, while of the two
    calls the first, if its text fits alone, succeeds and appends it with a
    terminator, and the second then refuses and leaves that: AppendStr is
    all or nothing for one call, not for a sequence of calls.  If not even
    the first text fits, the first call refuses and changes nothing. *)
Theorem AppendStr_app (t : target) (dest : buffer) (destSize : Z)
    (s1 s2 : wstr) (curLen : Z) :
  0 <= destSize <= Z.of_nat (length dest) -> destSize <= INT_MAX ->
  0 <= curLen <= INT_MAX -> lstrlenW (s1 ++ s2) <= INT_MAX ->
  if decide (curLen + lstrlenW (s1 ++ s2) < destSize)
  then AppendStr t dest destSize (s1 ++ s2) curLen
       = Some (true,
               take (Z.to_nat curLen) dest ++ s1 ++ s2
               ++ NUL :: drop (S (Z.to_nat curLen + length (s1 ++ s2))) dest,
               curLen + lstrlenW (s1 ++ s2))
       /\ ('(ok, dest1, curLen1) ← AppendStr t dest destSize s1 curLen;
           AppendStr t dest1 destSize s2 curLen1)
          = AppendStr t dest destSize (s1 ++ s2) curLen
  else AppendStr t dest destSize (s1 ++ s2) curLen = Some (false, dest, curLen)
       /\ if decide (curLen + lstrlenW s1 < destSize)
          then exists dest1,
                 dest1 = take (Z.to_nat curLen) dest ++ s1
                         ++ NUL :: drop (S (Z.to_nat curLen + length s1)) dest
                 /\ AppendStr t dest destSize s1 curLen
                    = Some (true, dest1, curLen + lstrlenW s1)
                 /\ AppendStr t dest1 destSize s2 (curLen + lstrlenW s1)
                    = Some (false, dest1, curLen + lstrlenW s1)
          else AppendStr t dest destSize s1 curLen = Some (false, dest, curLen).
Proof.
  intros Hsize Hmax Hcur Hlen.
  destruct (decide (curLen + lstrlenW (s1 ++ s2) < destSize)) as [Hfit|Hfit].
  { rewrite <- AppendStr_seq by (try done; lia). split; [|done].
    rewrite AppendStr_formula by done.
    rewrite decide_True by done. by rewrite <- app_assoc. }
  unfold lstrlenW in *. rewrite length_app in *.
  rewrite !AppendStr_formula by (unfold lstrlenW; rewrite ?length_app; lia).
  unfold lstrlenW. rewrite length_app.
  rewrite decide_False by lia. split; [done|].
  destruct (decide (curLen + Z.of_nat (length s1) < destSize)) as [H1|H1]; [|done].
  eexists. split; [reflexivity|]. split; [done|].
  rewrite AppendStr_formula.
  - unfold lstrlenW. by rewrite decide_False by lia.
  - rewrite !length_app, length_take, length_cons, length_drop. lia.
  - unfold INT_MAX in *. lia.
  - unfold lstrlenW. lia.
Qed.

Lemma AppendStr_app_witness :
  AppendStr X64 (replicate 8 7) 8 (L "ab" ++ L "cd") 0
  = Some (true, [97; 98; 99; 100; 0; 7; 7; 7], 4)
  /\ ('(ok, dest1, curLen1) ← AppendStr X64 (replicate 8 7) 8 (L "ab") 0;
      AppendStr X64 dest1 8 (L "cd") curLen1)
     = AppendStr X64 (replicate 8 7) 8 (L "ab" ++ L "cd") 0.
Proof.
  apply (AppendStr_app X64 (replicate 8 7) 8 (L "ab") (L "cd") 0).
  - simpl. lia.
  - unfold INT_MAX. lia.
  - unfold INT_MAX. lia.
  - vm_compute. discriminate.
Defined.

(** ** AppendEscaped *)

Lemma AppendEscaped_cons (t : target) (dest : buffer) (destSize : Z) (c : Z)
    (src : wstr) (curLen : Z) :
  AppendEscaped t dest destSize (c :: src) curLen
  = (r ← AppendStr t dest destSize (if c =? DQUOTE then escaped_quote else [c]) curLen;
     match r with
     | (false, dest', curLen') => Some (false, dest', curLen')
     | (true, dest', curLen') => AppendEscaped t dest' destSize src curLen'
     end).
Proof. simpl. by destruct (c =? DQUOTE). Qed.

(** X7. While the escaped text fits, AppendEscaped does what one AppendStr
    call with the escaped text does: the same buffer, cell for cell, and
    the same length.  (The buffer must be terminated at [curLen], as it is
    after every append: for an empty text AppendEscaped writes nothing.) *)
Theorem AppendEscaped_as_AppendStr (t : target) (destSize : Z) (src : wstr) :
  forall (dest : buffer) (curLen : Z),
  0 <= destSize <= Z.of_nat (length dest) -> destSize <= INT_MAX ->
  0 <= curLen -> dest !! Z.to_nat curLen = Some NUL ->
  curLen + lstrlenW (spec_escape src) < destSize ->
  AppendEscaped t dest destSize src curLen
  = AppendStr t dest destSize (spec_escape src) curLen.
Proof.
  induction src as [|c src IH]; intros dest curLen Hsize Hmax Hcur Hnul Hfit.
  - simpl AppendEscaped. change (spec_escape []) with (@nil Z) in *.
    rewrite AppendStr_formula by (unfold lstrlenW, INT_MAX in *; simpl; lia).
    unfold lstrlenW in *. simpl length in *.
    rewrite decide_True by lia. simpl.
    rewrite Nat.add_0_r, (take_drop_middle _ _ _ Hnul), Z.add_0_r. done.
  - rewrite spec_escape_cons in Hfit |- *.
    set (piece := if c =? DQUOTE then escaped_quote else [c]) in *.
    assert (Hp : (1 <= length piece <= 2)%nat).
    { unfold piece. destruct (c =? DQUOTE); simpl; lia. }
    rewrite AppendStr_seq by done.
    rewrite AppendEscaped_cons. fold piece.
    unfold lstrlenW in Hfit. rewrite length_app in Hfit.
    rewrite AppendStr_formula by (unfold lstrlenW, INT_MAX in *; lia).
    unfold lstrlenW. rewrite decide_True by lia. simpl.
    apply IH; try done.
    + rewrite !length_app, length_take, length_cons, length_drop. lia.
    + lia.
    + replace (Z.to_nat (curLen + Z.of_nat (length piece)))
        with (length (take (Z.to_nat curLen) dest ++ piece))
        by (rewrite length_app, length_take; lia).
      rewrite app_assoc. by apply list_lookup_middle.
    + unfold lstrlenW. lia.
Qed.

Lemma AppendEscaped_as_AppendStr_witness :
  AppendEscaped X64 (fst empty_cmd) CMD_BUFFER_SIZE say_hi 0
  = AppendStr X64 (fst empty_cmd) CMD_BUFFER_SIZE (spec_escape say_hi) 0.
Proof.
  apply (AppendEscaped_as_AppendStr X64 CMD_BUFFER_SIZE say_hi (fst empty_cmd) 0).
  - vm_compute. split; discriminate.
  - vm_compute. discriminate.
  - lia.
  - reflexivity.
  - vm_compute. reflexivity.
Defined.

(** X8. When AppendEscaped reports failure, the buffer still holds a
    terminated text: what it held before, followed by the escaped form of
    the first [k] characters of [src], where character [k] is the first
    whose escaped form did not fit.  A backslash is never left without its
    double quote. *)
Theorem AppendEscaped_failure_keeps_prefix (t : target) (src : wstr) :
  forall (st : buffer * Z) (s : wstr) (cmd' : buffer) (pos' : Z),
  holds st s -> lstrlenW src <= INT_MAX ->
  AppendEscaped t (fst st) CMD_BUFFER_SIZE src (snd st) = Some (false, cmd', pos') ->
  exists k,
    (k < length src)%nat
    /\ holds (cmd', pos') (s ++ spec_escape (take k src))
    /\ ~ fits (s ++ spec_escape (take (S k) src)).
Proof.
  induction src as [|c src IH]; intros st s cmd' pos' Hh Hsrc E.
  - discriminate E.
  - rewrite AppendEscaped_cons in E.
    set (piece := if c =? DQUOTE then escaped_quote else [c]) in *.
    assert (Hp : lstrlenW piece <= INT_MAX).
    { unfold piece. destruct (c =? DQUOTE); compute; discriminate. }
    assert (Hone : spec_escape [c] = piece).
    { rewrite spec_escape_cons. apply app_nil_r. }
    destruct (decide (fits (s ++ piece))) as [Hf|Hf].
    + destruct (AppendStr_fits t st s piece (proj1 Hh) Hp Hf) as (st1 & E1 & H1).
      rewrite E1 in E. simpl in E.
      destruct (IH st1 _ cmd' pos' H1) as (k & Hk & Hk1 & Hk2); [|exact E|].
      { unfold lstrlenW in *. simpl in Hsrc. lia. }
      exists (S k). simpl length. split; [lia|].
      simpl take. rewrite !spec_escape_cons. fold piece.
      rewrite !app_assoc. done.
    + rewrite (AppendStr_overflow t st s piece (proj1 Hh) Hp Hf) in E.
      simpl in E. injection E as <- <-.
      exists 0%nat. simpl length. split; [lia|].
      change (take 0 (c :: src)) with (@nil Z).
      change (take 1 (c :: src)) with [c].
      change (spec_escape []) with (@nil Z).
      rewrite app_nil_r, Hone. split; [by destruct st | done].
Qed.

Lemma AppendEscaped_failure_keeps_prefix_witness :
  exists k,
    (k < length (A := Z) [65%Z; DQUOTE])%nat
    /\ holds (replicate 1022 65 ++ [65; NUL], 1023)
         (replicate 1022 65 ++ spec_escape (take k [65; DQUOTE]))
    /\ ~ fits (replicate 1022 65 ++ spec_escape (take (S k) [65; DQUOTE])).
Proof.
  apply (AppendEscaped_failure_keeps_prefix X64 [65; DQUOTE] nearly_full_cmd
           (replicate 1022 65)).
  - repeat split; try reflexivity. vm_compute. discriminate.
  - vm_compute. discriminate.
  - vm_compute. reflexivity.
Defined.

Lemma spec_escape_quote_preceded (s : wstr) : forall i,
  spec_escape s !! i = Some DQUOTE ->
  exists j, i = S j /\ spec_escape s !! j = Some BACKSLASH.
Proof.
  induction s as [|c s IH]; intros i Hi.
  - by destruct i.
  - rewrite spec_escape_cons in Hi |- *.
    destruct (Z.eqb_spec c DQUOTE) as [->|Hc].
    + destruct i as [|[|i]]; simpl in *.
      * discriminate.
      * by exists 0%nat.
      * destruct (IH i Hi) as (j & -> & Hj). by exists (S (S j)).
    + destruct i as [|i]; simpl in *.
      * congruence.
      * destruct (IH i Hi) as (j & -> & Hj). by exists (S j).
Qed.

Lemma spec_escape_inj (s1 : wstr) : forall s2,
  spec_escape s1 = spec_escape s2 -> s1 = s2.
Proof.
  induction s1 as [|c1 s1 IH]; intros [|c2 s2] E.
  - done.
  - rewrite spec_escape_cons in E. destruct (c2 =? DQUOTE); discriminate.
  - rewrite spec_escape_cons in E. destruct (c1 =? DQUOTE); discriminate.
  - rewrite !spec_escape_cons in E.
    destruct (Z.eqb_spec c1 DQUOTE) as [->|H1], (Z.eqb_spec c2 DQUOTE) as [->|H2];
      simpl in E.
    + injection E as E. f_equal. by apply IH.
    + injection E as <- E.
      destruct (spec_escape_quote_preceded s2 0) as (j & Hj & _); [by rewrite <- E|].
      discriminate.
    + injection E as -> E.
      destruct (spec_escape_quote_preceded s1 0) as (j & Hj & _); [by rewrite E|].
      discriminate.
    + injection E as -> E. f_equal. by apply IH.
Qed.

(** X9. In the text a successful AppendEscaped call has added, every double
    quote stands directly after a backslash that the call added with it;
    and the added text determines the source text: two texts that leave the
    same buffer and length behind are equal. *)
Theorem AppendEscaped_quotes_escaped (t : target) (st st' : buffer * Z)
    (s src : wstr) :
  holds st s -> lstrlenW src <= INT_MAX ->
  AppendEscaped t (fst st) CMD_BUFFER_SIZE src (snd st)
  = Some (true, fst st', snd st') ->
  (forall i, (length s <= i)%nat -> Z.of_nat i < snd st' ->
     fst st' !! i = Some DQUOTE ->
     (length s < i)%nat /\ fst st' !! (i - 1)%nat = Some BACKSLASH)
  /\ (forall src2, lstrlenW src2 <= INT_MAX ->
        AppendEscaped t (fst st) CMD_BUFFER_SIZE src2 (snd st)
        = Some (true, fst st', snd st') ->
        src2 = src).
Proof.
  intros Hh Hsrc E.
  assert (Hheld : forall src0, lstrlenW src0 <= INT_MAX ->
            AppendEscaped t (fst st) CMD_BUFFER_SIZE src0 (snd st)
            = Some (true, fst st', snd st') ->
            holds st' (s ++ spec_escape src0)).
  { intros src0 H0 E0.
    destruct (AppendEscaped_cases t src0 st s Hh H0)
      as [(_ & st1 & E1 & H1) | (_ & st1 & E1)]; [|congruence].
    rewrite E1 in E0. injection E0 as Ea Eb.
    destruct st1, st'; simpl in *. by subst. }
  pose proof (Hheld src Hsrc E) as ((_ & Hpos & _ & Htake) & _).
  split.
  - intros i Hi Hlt Hq.
    assert (Hin : (i < length (s ++ spec_escape src))%nat)
      by (unfold lstrlenW in Hpos; lia).
    rewrite <- (lookup_take_lt _ (length (s ++ spec_escape src))) in Hq by done.
    rewrite Htake, lookup_app_r in Hq by done.
    destruct (spec_escape_quote_preceded src _ Hq) as (j & Hj & Hb).
    split; [lia|].
    rewrite <- (lookup_take_lt _ (length (s ++ spec_escape src))) by lia.
    rewrite Htake, lookup_app_r by lia.
    rewrite <- Hb. f_equal. lia.
  - intros src2 H2 E2.
    pose proof (Hheld src2 H2 E2) as ((_ & Hpos2 & _ & Htake2) & _).
    assert (Hlen : length (s ++ spec_escape src2) = length (s ++ spec_escape src))
      by (unfold lstrlenW in *; lia).
    rewrite Hlen, Htake in Htake2.
    apply spec_escape_inj. by apply app_inv_head in Htake2.
Qed.

Lemma AppendEscaped_quotes_escaped_witness :
  AppendEscaped X64 (fst empty_cmd) CMD_BUFFER_SIZE say_hi (snd empty_cmd)
  = Some (true, spec_escape say_hi ++ replicate 1010 NUL, 14)
  /\ (spec_escape say_hi ++ replicate 1010 NUL) !! 5%nat = Some DQUOTE
  /\ (spec_escape say_hi ++ replicate 1010 NUL) !! 4%nat = Some BACKSLASH.
Proof.
  assert (E : AppendEscaped X64 (fst empty_cmd) CMD_BUFFER_SIZE say_hi (snd empty_cmd)
              = Some (true, fst (spec_escape say_hi ++ replicate 1010 NUL, 14),
                      snd (spec_escape say_hi ++ replicate 1010 NUL, 14)))
    by (vm_compute; reflexivity).
  split; [exact E|]. split; [reflexivity|].
  refine (proj2 (proj1 (AppendEscaped_quotes_escaped X64 empty_cmd
                          (spec_escape say_hi ++ replicate 1010 NUL, 14) []
                          say_hi empty_cmd_holds _ E) 5%nat _ _ _)).
  - vm_compute. discriminate.
  - simpl. lia.
  - simpl. lia.
  - reflexivity.
Defined.

Lemma length_spec_escape (s : wstr) :
  length (spec_escape s) = (length s + count_quotes s)%nat.
Proof.
  unfold count_quotes. induction s as [|c s IH]; [done|].
  rewrite spec_escape_cons, length_app, IH.
  destruct (Z.eqb_spec c DQUOTE) as [->|Hc].
  - rewrite filter_cons_True by done. simpl. lia.
  - rewrite filter_cons_False by done. simpl. lia.
Qed.

Lemma param_cost_length (arg : wstr) :
  lstrlenW (SPACE :: spec_param arg) = param_cost arg.
Proof.
  unfold param_cost, spec_param, lstrlenW. rewrite alreadyQuoted_spec.
  case_bool_decide.
  - rewrite decide_True by done. simpl. lia.
  - rewrite decide_False by done.
    rewrite length_cons, !length_app, length_spec_escape. simpl. lia.
Qed.

(** X10. What a forwarded parameter costs.  A parameter without semicolon
    is appended exactly when its cost fits before the terminator: one cell
    for the space and, if it is already quoted, one per character; else two
    more for the added quotes and one more for each double quote in it.
    The length then grows by exactly that cost; otherwise the run returns. *)
Theorem parameter_cost (b : build) (arg : wstr) (st : buffer * Z) (s : wstr) :
  holds st s -> wstr_ok arg -> SEMICOLON ∉ arg ->
  match process_param b arg st with
  | (_, Continue st') =>
      snd st' = snd st + param_cost arg
      /\ snd st + param_cost arg < CMD_BUFFER_SIZE
  | (_, Return code) =>
      code = 1 /\ CMD_BUFFER_SIZE <= snd st + param_cost arg
  | (_, Undefined) | (_, Blocked) => False
  end.
Proof.
  intros H0 Hok Hns.
  pose proof (process_param_outcome b arg st s H0 Hok) as H.
  pose proof (param_cost_length arg) as Hcost.
  destruct H0 as ((_ & Hpos & _) & _).
  destruct (process_param b arg st) as [tr [st'|code| |]]; try done.
  - destruct H as (_ & _ & (_ & Hpos' & Hfit & _) & _).
    unfold fits, lstrlenW in *. rewrite length_app in *. lia.
  - destruct H as (-> & [Hs | Hnf]); [done|]. split; [done|].
    unfold fits, lstrlenW in *. rewrite length_app in *. lia.
Qed.

Lemma parameter_cost_witness :
  param_cost say_hi = 17
  /\ exists st',
       snd (process_param (default_build X64) say_hi empty_cmd) = Continue st'
       /\ snd st' = 17.
Proof.
  split; [reflexivity|].
  pose proof (parameter_cost (default_build X64) say_hi empty_cmd []) as H.
  destruct (process_param (default_build X64) say_hi empty_cmd)
    as [tr [st'|code| |]] eqn:E.
  - exists st'. destruct H as [H _].
    + apply empty_cmd_holds.
    + apply (bool_decide_unpack _). by vm_compute.
    + apply (bool_decide_unpack _). by vm_compute.
    + split; [reflexivity | exact H].
  - exfalso. vm_compute in E. discriminate E.
  - exfalso. vm_compute in E. discriminate E.
  - exfalso. vm_compute in E. discriminate E.
Defined.

(** ** The loop over the parameters, further *)

Lemma wstr_ok_app_inv (s1 s2 : wstr) : wstr_ok (s1 ++ s2) -> wstr_ok s2.
Proof.
  unfold wstr_ok, lstrlenW. rewrite Forall_app, length_app. intros [[_ H] Hl].
  split; [done|lia].
Qed.

Lemma wstr_ok_app_inv_l (s1 s2 : wstr) : wstr_ok (s1 ++ s2) -> wstr_ok s1.
Proof.
  unfold wstr_ok, lstrlenW. rewrite Forall_app, length_app. intros [[H _] Hl].
  split; [done|lia].
Qed.

(** X11. A parameter without double quotes and the same parameter put in
    double quotes by the caller come out alike: the loop body appends the
    same text for both (a space, the parameter in one pair of quotes), or
    fails for both.  The child cannot tell which one the launcher was given. *)
Theorem bare_and_quoted_rendered_alike (b : build) (p : wstr)
    (st : buffer * Z) (s : wstr) :
  holds st s -> wstr_ok ([DQUOTE] ++ p ++ [DQUOTE]) -> DQUOTE ∉ p ->
  match process_param b ([DQUOTE] ++ p ++ [DQUOTE]) st, process_param b p st with
  | (_, Continue st1), (_, Continue st2) =>
      holds st1 (s ++ [SPACE; DQUOTE] ++ p ++ [DQUOTE])
      /\ holds st2 (s ++ [SPACE; DQUOTE] ++ p ++ [DQUOTE])
  | (_, Return code1), (_, Return code2) => code1 = 1 /\ code2 = 1
  | _, _ => False
  end.
Proof.
  intros H0 Hokq Hno.
  assert (Hok : wstr_ok p) by (eapply wstr_ok_app_inv_l, wstr_ok_app_inv, Hokq).
  assert (Hpreq : pre_quoted ([DQUOTE] ++ p ++ [DQUOTE])).
  { split; [|split].
    - unfold lstrlenW. rewrite !length_app. simpl. lia.
    - done.
    - by rewrite app_assoc, last_snoc. }
  assert (Hpre : ~ pre_quoted p).
  { intros (_ & Hh & _). by apply Hno, head_elem_of. }
  pose proof (process_param_outcome b _ st s H0 Hokq) as H1.
  pose proof (process_param_outcome b p st s H0 Hok) as H2.
  unfold spec_param in H1, H2.
  rewrite decide_True in H1 by done. rewrite decide_False in H2 by done.
  rewrite (spec_escape_no_quote p Hno) in H2.
  assert (Hsemi : SEMICOLON ∈ [DQUOTE] ++ p ++ [DQUOTE] <-> SEMICOLON ∈ p).
  { rewrite !elem_of_app, !list_elem_of_singleton. unfold SEMICOLON, DQUOTE.
    intuition discriminate. }
  destruct (process_param b ([DQUOTE] ++ p ++ [DQUOTE]) st) as [tr1 [st1|c1| |]],
    (process_param b p st) as [tr2 [st2|c2| |]]; try done.
  - by destruct H1 as (_ & _ & ?), H2 as (_ & _ & ?).
  - destruct H1 as (_ & Hn1 & Hh1), H2 as (_ & [Hs | Hf]).
    + by apply Hn1, Hsemi.
    + apply Hf, Hh1.
  - destruct H2 as (_ & Hn2 & Hh2), H1 as (_ & [Hs | Hf]).
    + by apply Hn2, Hsemi.
    + apply Hf, Hh2.
  - by destruct H1 as [-> _], H2 as [-> _].
Qed.

Lemma bare_and_quoted_rendered_alike_witness :
  exists st1 st2,
    snd (process_param (default_build X64) john_doe empty_cmd) = Continue st1
    /\ snd (process_param (default_build X64) (L "John Doe") empty_cmd) = Continue st2
    /\ holds st1 ([SPACE; DQUOTE] ++ L "John Doe" ++ [DQUOTE])
    /\ holds st2 ([SPACE; DQUOTE] ++ L "John Doe" ++ [DQUOTE]).
Proof.
  pose proof (bare_and_quoted_rendered_alike (default_build X64) (L "John Doe")
                empty_cmd [] empty_cmd_holds) as H.
  change ([DQUOTE] ++ L "John Doe" ++ [DQUOTE]) with john_doe in H.
  destruct (process_param (default_build X64) john_doe empty_cmd)
    as [tr1 [st1|c1| |]] eqn:E1;
    [|exfalso; vm_compute in E1; discriminate E1..].
  destruct (process_param (default_build X64) (L "John Doe") empty_cmd)
    as [tr2 [st2|c2| |]] eqn:E2;
    [|exfalso; vm_compute in E2; discriminate E2..].
  exists st1, st2. split; [reflexivity|]. split; [reflexivity|].
  apply H.
  - apply (bool_decide_unpack _). by vm_compute.
  - apply (bool_decide_unpack _). by vm_compute.
Defined.

Lemma spec_escape_app (s1 s2 : wstr) :
  spec_escape (s1 ++ s2) = spec_escape s1 ++ spec_escape s2.
Proof.
  unfold spec_escape. apply flat_map_app.
Qed.

(** The backslashes of a text. *)
Lemma spec_escape_backslashes (s : wstr) :
  length (filter (fun c => c = BACKSLASH) (spec_escape s))
  = (length (filter (fun c => c = BACKSLASH) s) + count_quotes s)%nat.
Proof.
  unfold count_quotes. induction s as [|c s IH]; [done|].
  rewrite spec_escape_cons, filter_app, length_app, IH.
  rewrite !(filter_cons _ c s).
  destruct (Z.eqb_spec c DQUOTE) as [->|Hq].
  - rewrite decide_False, decide_True by done.
    change (length (filter _ escaped_quote)) with 1%nat.
    simpl. lia.
  - rewrite (decide_False (P := c = DQUOTE)) by done.
    destruct (decide (c = BACKSLASH)) as [->|Hb].
    + change (length (filter _ [BACKSLASH])) with 1%nat. simpl. lia.
    + rewrite filter_cons, decide_False by done. simpl. lia.
Qed.

(** X12. Backslashes are copied as they are, never doubled.  A parameter
    that ends with a backslash is not pre-quoted.  Unless it holds a
    semicolon or does not fit (then 1 is returned), the loop body appends a
    space, a double quote, the parameter with each double quote preceded by a
    backslash and nothing else changed, and the closing double quote; so the
    appended text has one backslash for each backslash and each double quote
    of the parameter, a parameter without double quotes stands between the
    added quotes exactly as it came, and the text ends with the parameter's
    last backslash followed by the closing quote: the same two characters
    the escaping writes for a double quote. *)
Theorem trailing_backslash_meets_closing_quote (b : build) (arg : wstr)
    (st : buffer * Z) (s : wstr) :
  holds st s -> wstr_ok arg -> last arg = Some BACKSLASH ->
  alreadyQuoted arg = false
  /\ match process_param b arg st with
     | (tr, Continue st') =>
         tr = [] /\ (SEMICOLON ∉ arg)
         /\ holds st' (s ++ [SPACE; DQUOTE] ++ spec_escape (removelast arg)
                         ++ [BACKSLASH; DQUOTE])
         /\ spec_escape (removelast arg) ++ [BACKSLASH] = spec_escape arg
         /\ length (filter (fun c => c = BACKSLASH) (spec_escape arg))
            = (length (filter (fun c => c = BACKSLASH) arg) + count_quotes arg)%nat
         /\ (DQUOTE ∉ arg -> holds st' (s ++ [SPACE; DQUOTE] ++ arg ++ [DQUOTE]))
     | (tr, Return code) =>
         code = 1
         /\ (SEMICOLON ∈ arg
             \/ ~ fits (s ++ [SPACE; DQUOTE] ++ spec_escape (removelast arg)
                          ++ [BACKSLASH; DQUOTE]))
     | (_, Undefined) | (_, Blocked) => False
     end.
Proof.
  intros H0 Hok Hlast.
  assert (Hpre : ~ pre_quoted arg).
  { intros (_ & _ & Hl). rewrite Hlast in Hl. discriminate. }
  split.
  { rewrite alreadyQuoted_spec. by apply bool_decide_eq_false. }
  pose proof (process_param_outcome b arg st s H0 Hok) as H.
  unfold spec_param in H. rewrite decide_False in H by done.
  pose proof (spec_escape_backslashes arg) as Hcount.
  pose proof (spec_escape_no_quote arg) as Hsame.
  apply last_Some in Hlast as [init ->].
  rewrite removelast_last.
  rewrite spec_escape_app in H, Hsame |- *.
  change (spec_escape [BACKSLASH]) with [BACKSLASH] in *.
  rewrite <- (app_assoc (spec_escape init)) in H.
  change (([BACKSLASH] ++ [DQUOTE])) with [BACKSLASH; DQUOTE] in H.
  destruct (process_param b (init ++ [BACKSLASH]) st) as [tr [st'|code| |]];
    try done.
  destruct H as (-> & Hsemi & H). split; [done|]. split; [done|].
  split; [exact H|]. split; [done|]. split.
  { rewrite spec_escape_app in Hcount. exact Hcount. }
  intros Hno. rewrite <- (Hsame Hno), <- app_assoc. exact H.
Qed.

Lemma trailing_backslash_meets_closing_quote_witness :
  exists st',
    process_param (default_build X64) (L "C:\dir" ++ [BACKSLASH]) empty_cmd
    = ([], Continue st')
    /\ holds st' ([SPACE; DQUOTE] ++ L "C:\dir" ++ [BACKSLASH; DQUOTE]).
Proof.
  destruct (trailing_backslash_meets_closing_quote (default_build X64)
              (L "C:\dir" ++ [BACKSLASH]) empty_cmd [] empty_cmd_holds)
    as [_ H].
  - apply (bool_decide_unpack _). by vm_compute.
  - reflexivity.
  - destruct (process_param (default_build X64) (L "C:\dir" ++ [BACKSLASH]) empty_cmd)
      as [tr [st'|code| |]] eqn:E;
      [|exfalso; vm_compute in E; discriminate E
       |exact (False_ind _ H)|exact (False_ind _ H)].
    destruct H as (-> & _ & H & _). exists st'. split; [reflexivity | exact H].
Defined.

(** ** The run as a whole, further *)

(** The four shapes of a run. *)
Lemma WinMain_shape (b : build) (h : host) :
  host_ok h ->
  (CommandLineToArgvW h = None /\
   WinMain b h
   = (ShowError b (Text (L "Failed to parse command line.")) (L "Error");;
      return_ 1))
  \/ (exists args,
        CommandLineToArgvW h = Some args /\ usage_error args = true /\
        WinMain b h = show_usage)
  \/ (exists args dir,
        CommandLineToArgvW h = Some args /\ usage_error args = false /\
        launchable h args dir /\
        WinMain b h
        = (LocalFree;;
           spawn b h (spec_command_line (spec_interpreter_path dir)
                        (arg_at args 2) (drop 3 args))))
  \/ (exists args shown,
        CommandLineToArgvW h = Some args /\ usage_error args = false /\
        (forall dir, ~ launchable h args dir) /\
        WinMain b h = bail_out b shown).
Proof.
  intros Hok. destruct (CommandLineToArgvW h) as [args|] eqn:Ha.
  2:{ left. split; [done|]. unfold WinMain. by rewrite Ha. }
  right. destruct (usage_error args) eqn:Hu.
  { left. exists args. by rewrite (WinMain_usage b h args). }
  right. rewrite (WinMain_launch b h args) by done.
  destruct (launch_cases b h args Hok) as [(dir & Hl & ->) | (Hno & shown & ->)].
  { by apply Hok. }
  - left. by exists args, dir.
  - right. by exists args, shown.
Qed.

Lemma free_calls_app (tr1 tr2 : list event) :
  free_calls (tr1 ++ tr2) = (free_calls tr1 + free_calls tr2)%nat.
Proof.
  induction tr1 as [|e tr1 IH]; [done|].
  destruct e; simpl; by rewrite ?IH.
Qed.

(** A trace that is cut at a CreateProcessW call holds one. *)
Lemma spawn_in_trace (pre post : list event) (e : event) :
  is_spawn e = true -> existsb is_spawn (pre ++ e :: post) = true.
Proof.
  intros He. rewrite existsb_app. simpl. rewrite He.
  by rewrite orb_true_r.
Qed.

(** X13. The argument array is released exactly once on every path on
    which the parser returned one, and LocalFree is not called when the
    parser returned NULL.  The release comes before the child: wherever the
    trace holds a CreateProcessW call, the one LocalFree call stands before
    it and none after it. *)
Theorem argument_array_freed_once (b : build) (h : host) :
  host_ok h ->
  free_calls (trace (WinMain b h))
  = match CommandLineToArgvW h with Some _ => 1%nat | None => 0%nat end
  /\ forall (pre post : list event) (e : event),
       trace (WinMain b h) = pre ++ e :: post -> is_spawn e = true ->
       free_calls pre = 1%nat /\ free_calls post = 0%nat.
Proof.
  intros Hok.
  assert (Hcases :
    free_calls (trace (WinMain b h))
    = match CommandLineToArgvW h with Some _ => 1%nat | None => 0%nat end
    /\ (existsb is_spawn (trace (WinMain b h)) = false
        \/ exists tr, trace (WinMain b h) = EvLocalFree :: tr
                      /\ free_calls tr = 0%nat)).
  { destruct (WinMain_shape b h Hok)
      as [(-> & ->) | [(args & -> & _ & ->) | [(args & dir & -> & _ & _ & ->)
         | (args & shown & -> & _ & _ & ->)]]].
    - unfold ShowError.
      destruct (ENABLE_ERROR_DIALOGS b); split; try reflexivity; by left.
    - split; [reflexivity | by left].
    - generalize (spec_command_line (spec_interpreter_path dir) (arg_at args 2)
                    (drop 3 args)).
      intros cmdline. unfold spawn, ShowError.
      destruct (CreateProcessW h cmdline), (WaitForSingleObject h),
        (ENABLE_ERROR_DIALOGS b);
        (split; [reflexivity | right; eexists; split; reflexivity]).
    - rewrite bail_out_eq.
      destruct shown, (ENABLE_ERROR_DIALOGS b); split; try reflexivity; by left. }
  destruct Hcases as [Hcount Horder]. split; [exact Hcount|].
  intros pre post e Htr He.
  destruct Horder as [Hnone | (tr & Htr' & Hfree)].
  { rewrite Htr, spawn_in_trace in Hnone by done. discriminate Hnone. }
  rewrite Htr in Htr'. destruct pre as [|e' pre].
  { injection Htr' as -> _. discriminate He. }
  injection Htr' as -> <-.
  rewrite free_calls_app in Hfree.
  destruct e; try discriminate He. simpl in *. lia.
Qed.

Lemma argument_array_freed_once_witness :
  free_calls (trace (WinMain (default_build X64) (example_host []))) = 1%nat
  /\ exists pre e post,
       trace (WinMain (default_build X64) (example_host [])) = pre ++ e :: post
       /\ is_spawn e = true /\ free_calls pre = 1%nat /\ free_calls post = 0%nat.
Proof.
  destruct (argument_array_freed_once (default_build X64) (example_host []))
    as [Hcount Horder].
  - apply example_host_ok. check_params.
  - split; [exact Hcount|].
    set (tr := trace (WinMain (default_build X64) (example_host []))) in *.
    assert (E : tr = take 1 tr ++ nth 1 tr EvLocalFree :: drop 2 tr)
      by (vm_compute; reflexivity).
    assert (He : is_spawn (nth 1 tr EvLocalFree) = true)
      by (vm_compute; reflexivity).
    exists (take 1 tr), (nth 1 tr EvLocalFree), (drop 2 tr).
    split; [exact E|]. split; [exact He|].
    exact (Horder _ _ _ E He).
Defined.

Lemma usage_error_false_inv (args : list wstr) :
  usage_error args = false ->
  (3 <= length args)%nat /\ lstrcmpiW (arg_at args 1) (L "-Script") = 0.
Proof.
  intros Hu. destruct (decide (3 <= length args)%nat) as [Hn|Hn].
  - split; [done|].
    destruct (decide (lstrcmpiW (arg_at args 1) (L "-Script") = 0)) as [|Hf]; [done|].
    assert (usage_error args = true) by (apply usage_error_iff; by right).
    congruence.
  - assert (usage_error args = true) by (apply usage_error_iff; left; lia).
    congruence.
Qed.

(** X14. CreateProcessW is called at most once, and only for a valid
    invocation: at least three tokens, the flag in token 1, an interpreter
    path that could be built, both files present, no semicolon in a
    forwarded parameter, a command line that fits; the call then carries
    the specified command line.  Every run without the call returns 1. *)
Theorem spawn_only_for_valid_invocation (b : build) (h : host) :
  host_ok h ->
  match spawn_calls (trace (WinMain b h)) with
  | [] => returned (WinMain b h) = Some 1
  | [cmdline] =>
      exists args dir,
        CommandLineToArgvW h = Some args
        /\ (3 <= length args)%nat
        /\ lstrcmpiW (arg_at args 1) (L "-Script") = 0
        /\ launchable h args dir
        /\ cmdline = spec_command_line (spec_interpreter_path dir)
                       (arg_at args 2) (drop 3 args)
  | _ :: _ :: _ => False
  end.
Proof.
  intros Hok.
  destruct (WinMain_shape b h Hok)
    as [(_ & ->) | [(args & _ & _ & ->) | [(args & dir & Ha & Hu & Hl & ->)
       | (args & shown & _ & _ & _ & ->)]]].
  - unfold ShowError. by destruct (ENABLE_ERROR_DIALOGS b).
  - done.
  - destruct (usage_error_false_inv args Hu) as [Hn Hflag].
    unfold spawn, ShowError.
    destruct (CreateProcessW h _), (WaitForSingleObject h),
      (ENABLE_ERROR_DIALOGS b); simpl; by exists args, dir.
  - rewrite bail_out_eq. by destruct shown, (ENABLE_ERROR_DIALOGS b).
Qed.

Lemma spawn_only_for_valid_invocation_witness :
  spawn_calls (trace (WinMain (default_build X64) bare_host)) = []
  /\ returned (WinMain (default_build X64) bare_host) = Some 1.
Proof.
  pose proof (spawn_only_for_valid_invocation (default_build X64) bare_host
                bare_host_ok) as H.
  split; [reflexivity | exact H].
Defined.

(** X15. CloseHandle is called only for a child that was created and
    waited for: then once for the process handle and once for the thread
    handle, in this order; on every other path, and while the wait does not
    come back, no handle is closed. *)
Theorem handles_closed_after_wait (b : build) (h : host) :
  host_ok h ->
  close_calls (trace (WinMain b h))
  = if child_created (trace (WinMain b h)) && WaitForSingleObject h
    then [hProcess; hThread] else [].
Proof.
  intros Hok.
  destruct (WinMain_shape b h Hok)
    as [(_ & ->) | [(args & _ & _ & ->) | [(args & dir & _ & _ & _ & ->)
       | (args & shown & _ & _ & _ & ->)]]].
  - unfold ShowError. by destruct (ENABLE_ERROR_DIALOGS b).
  - done.
  - unfold spawn, ShowError.
    by destruct (CreateProcessW h _), (WaitForSingleObject h),
      (ENABLE_ERROR_DIALOGS b).
  - rewrite bail_out_eq. by destruct shown, (ENABLE_ERROR_DIALOGS b).
Qed.

Lemma handles_closed_after_wait_witness :
  close_calls (trace (WinMain (default_build X64) (example_host [])))
  = [hProcess; hThread].
Proof.
  etransitivity.
  - apply (handles_closed_after_wait (default_build X64) (example_host [])).
    apply example_host_ok. check_params.
  - vm_compute. reflexivity.
Defined.

(** X16. Only forwarded parameters are screened for semicolons.  A script
    path (token 2) that holds a semicolon is accepted, and the semicolon
    reaches the command line of the child. *)
Theorem script_path_not_screened (b : build) (h : host) (args : list wstr)
    (dir : wstr) :
  host_ok h -> CommandLineToArgvW h = Some args ->
  (3 <= length args)%nat -> lstrcmpiW (arg_at args 1) (L "-Script") = 0 ->
  launchable h args dir -> SEMICOLON ∈ arg_at args 2 ->
  exists cmdline,
    spawn_calls (trace (WinMain b h)) = [cmdline] /\ SEMICOLON ∈ cmdline.
Proof.
  intros Hok Ha Hn Hflag Hl Hsemi.
  exists (spec_command_line (spec_interpreter_path dir) (arg_at args 2) (drop 3 args)).
  split.
  - rewrite (WinMain_launchable b h args dir) by done.
    unfold spawn, ShowError.
    by destruct (CreateProcessW h _), (WaitForSingleObject h),
      (ENABLE_ERROR_DIALOGS b).
  - unfold spec_command_line, spec_prefix. rewrite !elem_of_app. tauto.
Qed.

Lemma script_path_not_screened_witness :
  exists cmdline,
    spawn_calls (trace (WinMain (default_build X64) semicolon_script_host))
    = [cmdline] /\ SEMICOLON ∈ cmdline.
Proof.
  apply (script_path_not_screened (default_build X64) semicolon_script_host
           [L "ps-launcher.exe"; L "-Script"; L "C:\a;b.ps1"]
           (L "C:\Windows\System32")).
  - split; [|split; [|split]].
    + intros args [= <-]. check_params.
    + intros dir [= <-]. apply (bool_decide_unpack _). by vm_compute.
    + by compute.
    + intros c [= <-]. by compute.
  - reflexivity.
  - simpl. lia.
  - reflexivity.
  - check_launchable.
  - apply has_semicolon_In. reflexivity.
Defined.

(** X17. The loop stops at the first parameter with a semicolon: when the
    parameters before it have been appended, the run ends there with
    LocalFree and return 1, without any display in any build, and the
    parameters after it are never looked at. *)
Theorem loop_stops_at_first_semicolon (b : build) (ps1 : list wstr) (p : wstr)
    (ps2 : list wstr) :
  forall (st : buffer * Z) (s : wstr),
  holds st s -> Forall wstr_ok ps1 -> existsb has_semicolon ps1 = false ->
  fits (s ++ spec_params ps1) -> SEMICOLON ∈ p ->
  parameter_processing b (ps1 ++ p :: ps2) st = ([EvLocalFree], Return 1).
Proof.
  induction ps1 as [|a ps1 IH]; intros st s H0 Hok Hns Hfit Hsemi.
  - simpl. rewrite process_param_semicolon by by apply has_semicolon_In.
    rewrite bail_out_bind, bail_out_eq. by destruct (ENABLE_ERROR_DIALOGS b).
  - apply Forall_cons in Hok as [[_ Ha] Hps].
    simpl in Hns. apply orb_false_elim in Hns as [Hna Hns].
    rewrite spec_params_cons, app_assoc in Hfit.
    change ((a :: ps1) ++ p :: ps2) with (a :: (ps1 ++ p :: ps2)).
    simpl parameter_processing.
    destruct (process_param_cases b a st s H0 Ha Hna)
      as [(_ & st1 & -> & H1) | (Hnf & _)].
    + rewrite M_ret_bind. by apply (IH st1 _ H1).
    + exfalso. apply Hnf. by apply fits_app_l in Hfit.
Qed.

Lemma loop_stops_at_first_semicolon_witness :
  parameter_processing (default_build X86)
    ([L "-Name"] ++ a_semicolon_b :: [replicate 2000 65]) empty_cmd
  = ([EvLocalFree], Return 1).
Proof.
  apply (loop_stops_at_first_semicolon (default_build X86) [L "-Name"]
           a_semicolon_b [replicate 2000 65] empty_cmd []).
  - apply empty_cmd_holds.
  - check_params.
  - reflexivity.
  - apply (bool_decide_unpack _). by vm_compute.
  - apply has_semicolon_In. reflexivity.
Defined.

(** X18. How long the system directory may be.  The relative path of the
    interpreter takes 37 characters, so the interpreter path is built
    exactly when the directory is not empty and, with its separating
    backslash, has at most 222 characters; otherwise path construction
    returns 1.  psPath is never accessed out of bounds. *)
Theorem system_directory_length_limit (b : build) (h : host) (dir : wstr) :
  host_ok h -> SystemDirectory h = Some dir ->
  lstrlenW psRelative = 37
  /\ match snd (path_construction b h) with
     | Continue psPath =>
         1 <= lstrlenW dir /\ lstrlenW (dir ++ separator dir) <= 222
         /\ buffer_cstr psPath = Some (dir ++ separator dir ++ psRelative)
     | Return code =>
         code = 1 /\ (dir = [] \/ 222 < lstrlenW (dir ++ separator dir))
     | Undefined | Blocked => False
     end.
Proof.
  intros Hok Hd. split; [done|].
  assert (Hrel : length psRelative = 37%nat) by done.
  destruct (path_construction_cases b h (proj1 (proj2 Hok)))
    as [(dir' & Hd' & [Hne Hfit] & psPath & -> & Hc)
       | ([Hn | (dir' & Hd' & Hnr)] & shown & ->)].
  - replace dir' with dir in * by congruence. simpl.
    unfold spec_interpreter_path, path_fits, lstrlenW, MAX_PATH in *.
    rewrite !length_app in *. split; [|split; [lia|done]].
    destruct dir; [done|]. simpl. lia.
  - congruence.
  - replace dir' with dir in * by congruence.
    rewrite bail_out_eq. simpl. split; [done|].
    destruct dir as [|c dir]; [by left|]. right.
    unfold resolvable, spec_interpreter_path, path_fits, lstrlenW, MAX_PATH in *.
    rewrite !length_app in *.
    destruct (decide (222 < Z.of_nat (length (c :: dir) + length (separator (c :: dir)))))
      as [|Hle]; [done|].
    exfalso. apply Hnr. split; [done|]. lia.
Qed.

Lemma system_directory_length_limit_witness :
  exists psPath,
    snd (path_construction (default_build X64) (example_host [])) = Continue psPath
    /\ buffer_cstr psPath
       = Some (L "C:\Windows\System32\WindowsPowerShell\v1.0\powershell.exe").
Proof.
  destruct (system_directory_length_limit (default_build X64) (example_host [])
              (L "C:\Windows\System32")) as [_ H].
  - apply example_host_ok. check_params.
  - reflexivity.
  - destruct (snd (path_construction (default_build X64) (example_host [])))
      as [psPath|code| |] eqn:E;
      [|exfalso; vm_compute in E; discriminate E
       |exact (False_ind _ H)|exact (False_ind _ H)].
    exists psPath. split; [reflexivity|]. exact (proj2 (proj2 H)).
Defined.
